(** * Model inference service: task lifecycle of the music generation app

    A shallow embedding of
    [services/model-inference-service/app/domain/models.py],
    [app/api/schemas.py], [app/core/inference_service.py] and the
    [/generate] handler of [app/api/endpoints.py].

    The service runs on one asyncio event loop.  A coroutine runs without
    interruption from one [await] that suspends to the next, so the model
    is a sequential machine whose steps are those uninterrupted segments;
    concurrency is the free interleaving of the steps. *)

From Stdlib Require Import ZArith NArith List String Ascii Lia Bool.
From stdpp Require Import base option list gmap.

Local Open Scope N_scope.

(** ** Python strings

    A [str] is a sequence of Unicode code points; [len] counts them. *)

Abbreviation pystr := (list N).

(** A literal of the source, written with ASCII characters only. *)
Definition py (s : string) : pystr :=
  map N_of_ascii (list_ascii_of_string s).
Arguments py : simpl never.

(** [str.lower], one code point at a time.  ASCII capitals move to their
    small letters; U+0130 lowers to [i] followed by U+0307 and U+212A
    (Kelvin sign) to [k], the only code points outside ASCII whose lower
    case holds an ASCII letter.  Every other code point outside ASCII
    lowers to code points outside ASCII and is kept as it is here: that
    neither creates nor destroys an occurrence of an ASCII needle such as
    ["fail"]. *)
Definition lower_char (c : N) : pystr :=
  if (65 <=? c) && (c <=? 90) then [c + 32]
  else if c =? 304 then [105; 775]
  else if c =? 8490 then [107]
  else [c].

Definition lower (s : pystr) : pystr := flat_map lower_char s.

Fixpoint startswith (p s : pystr) : bool :=
  match p, s with
  | [], _ => true
  | _ :: _, [] => false
  | a :: p', b :: s' => (a =? b) && startswith p' s'
  end.

(** [needle in hay] on strings: some suffix of [hay] starts with [needle]. *)
Fixpoint py_in (needle hay : pystr) : bool :=
  startswith needle hay ||
  match hay with
  | [] => false
  | _ :: hay' => py_in needle hay'
  end.

(** ** UUIDs

    A [uuid.UUID] is its 128-bit integer.  [str(u)] is the 32 lower-case
    hexadecimal digits of the integer in groups of 8-4-4-4-12. *)

Abbreviation UUID := N.

Definition hex_digit (d : N) : N := if d <? 10 then 48 + d else 87 + d.

Fixpoint hex (k : nat) (n : N) : pystr :=
  match k with
  | O => []
  | S k' => hex k' (n / 16) ++ [hex_digit (n mod 16)]
  end.

Definition uuid_str (u : UUID) : pystr :=
  let h := hex 32 u in
  take 8 h ++ py "-" ++ take 4 (drop 8 h) ++ py "-" ++
  take 4 (drop 12 h) ++ py "-" ++ take 4 (drop 16 h) ++ py "-" ++ drop 20 h.

(** ** Exceptions *)

Inductive exn :=
  | ModelNotReadyError (msg : pystr)
  | InvalidTaskError (msg : pystr)
  | ValueError (msg : pystr)
  | OverflowError (msg : pystr)
  | UnicodeEncodeError (msg : pystr)
  | OSError (msg : pystr)
  | ValidationError (loc : list string).

(** Whether [except Exception] and [except ModelNotReadyError] catch:
    every class above derives from [Exception]. *)
Definition is_ModelNotReadyError (e : exn) : bool :=
  match e with ModelNotReadyError _ => true | _ => false end.

Definition is_InvalidTaskError (e : exn) : bool :=
  match e with InvalidTaskError _ => true | _ => false end.

(** [str(e)].  The text pydantic prints for a [ValidationError] is not
    modelled; no operation of the core reads it. *)
Definition exn_str (e : exn) : pystr :=
  match e with
  | ModelNotReadyError msg | InvalidTaskError msg | ValueError msg
  | OverflowError msg | UnicodeEncodeError msg | OSError msg => msg
  | ValidationError _ => py "validation error"
  end.

Inductive result (A : Type) :=
  | Return (a : A)
  | Raise (e : exn).
Arguments Return {A} a.
Arguments Raise {A} e.

(** [a / b] on two [int]s, for [b > 0]: a float, the quotient rounded to
    the nearest (ties to even), or [OverflowError] when the rounded
    quotient leaves the float range, that is from [2^1024 - 2^970] on in
    absolute value.  The model keeps nothing of the float: it is only
    ever the delay of a sleep. *)
Definition int_truediv (a b : Z) : result unit :=
  if (b * (2 ^ 1024 - 2 ^ 970) <=? Z.abs a)%Z then
    Raise (OverflowError (py "integer division result too large for a float"))
  else Return tt.

(** ** domain/models.py *)

Inductive MusicGenerationStatus :=
  | PENDING
  | PROCESSING
  | COMPLETED
  | FAILED
  | QUEUED.

Record MusicGenerationRequest := {
  prompt : pystr;
  duration_seconds : Z;
  genre : option pystr;
  tempo : option Z
}.

Record MusicGenerationResult := {
  task_id : UUID;
  status : MusicGenerationStatus;
  audio_url : option pystr;
  error_message : option pystr;
  prompt_used : pystr;
  duration_seconds_generated : option Z
}.

(** The [Field] constraints: [min_length]/[max_length] on a string,
    [ge]/[le] on an integer; an [Optional] field set to [None] passes. *)
Definition len_between (lo hi : nat) (s : pystr) : bool :=
  (lo <=? length s)%nat && (length s <=? hi)%nat.

Definition int_between (lo hi : Z) (z : Z) : bool :=
  ((lo <=? z) && (z <=? hi))%Z.

Definition opt_int_between (lo hi : Z) (z : option Z) : bool :=
  match z with
  | None => true
  | Some z => int_between lo hi z
  end.

(** pydantic checks every field and reports the ones that fail. *)
Definition failed_fields (checks : list (string * bool)) : list string :=
  map fst (filter (fun c => negb (snd c)) checks).

Definition validated {A : Type} (checks : list (string * bool)) (a : A)
  : result A :=
  match failed_fields checks with
  | [] => Return a
  | loc => Raise (ValidationError loc)
  end.

(** [MusicGenerationRequest(prompt=..., duration_seconds=..., genre=...,
    tempo=...)]. *)
Definition MusicGenerationRequest_new
    (p : pystr) (d : Z) (g : option pystr) (t : option Z)
  : result MusicGenerationRequest :=
  validated
    [ ("prompt"%string, len_between 5 30 p);
      ("duration_seconds"%string, int_between 5 180 d);
      ("tempo"%string, opt_int_between 40 200 t) ]
    {| prompt := p; duration_seconds := d; genre := g; tempo := t |}.

(** A request object is one the constructor let through: pydantic models
    are built by their constructor only. *)
Definition valid_request (request : MusicGenerationRequest) : bool :=
  match MusicGenerationRequest_new (prompt request) (duration_seconds request)
          (genre request) (tempo request) with
  | Return _ => true
  | Raise _ => false
  end.

(** [MusicGenerationResult(prompt_used=..., status=...)]: the other fields
    take their defaults, and [task_id] the value [u] that [uuid4] returns
    for this construction. *)
Definition MusicGenerationResult_new
    (u : UUID) (p : pystr) (s : MusicGenerationStatus)
  : MusicGenerationResult :=
  {| task_id := u; status := s; audio_url := None; error_message := None;
     prompt_used := p; duration_seconds_generated := None |}.

(** ** api/schemas.py *)

Record GenerateMusicRequest := {
  api_prompt : pystr;
  api_duration_seconds : Z;
  api_genre : option pystr;
  api_tempo : option Z
}.

Definition GenerateMusicRequest_new
    (p : pystr) (d : Z) (g : option pystr) (t : option Z)
  : result GenerateMusicRequest :=
  validated
    [ ("prompt"%string, len_between 10 500 p);
      ("duration_seconds"%string, int_between 10 180 d);
      ("tempo"%string, opt_int_between 40 200 t) ]
    {| api_prompt := p; api_duration_seconds := d;
       api_genre := g; api_tempo := t |}.

Record GenerateMusicResponse := {
  resp_task_id : UUID;
  resp_status : MusicGenerationStatus;
  resp_message : pystr
}.

(** ** The state of the process

    Python objects are shared by reference: the dictionary [_mock_tasks],
    the value [generate_music] returns and the local [task] of a running
    [_simulate_generation] all name the same [MusicGenerationResult].  The
    objects live in [objects], addressed by position; a reference is an
    address. *)

Abbreviation ref := nat.

(** A [_simulate_generation(task_id, request)] coroutine wrapped by
    [asyncio.create_task]: not started yet, suspended in
    [await asyncio.sleep(...)] with its local [task] bound, or over. *)
Inductive coroutine :=
  | Created (tid : UUID) (request : MusicGenerationRequest)
  | Sleeping (task : ref) (tid : UUID) (request : MusicGenerationRequest)
  | Finished.

Record state := {
  _is_model_loaded : bool;
  _mock_tasks : gmap N ref;
  objects : list MusicGenerationResult;
  loop_tasks : list coroutine
}.

(** The class attributes as the module leaves them at import time. *)
Definition initial : state :=
  {| _is_model_loaded := false; _mock_tasks := ∅;
     objects := []; loop_tasks := [] |}.

(** ** A state and exception monad for the method bodies *)

Definition M (A : Type) : Type := state → result A * state.

Definition ret {A} (a : A) : M A := fun st => (Return a, st).

Definition raise {A} (e : exn) : M A := fun st => (Raise e, st).

Definition bind {A B} (m : M A) (k : A → M B) : M B :=
  fun st =>
    match m st with
    | (Return a, st') => k a st'
    | (Raise e, st') => (Raise e, st')
    end.

(** [try: body except Exception as e: handler(e)]; what [body] changed
    before it raised stays changed. *)
Definition try_except {A} (body : M A) (handler : exn → M A) : M A :=
  fun st =>
    match body st with
    | (Return a, st') => (Return a, st')
    | (Raise e, st') => handler e st'
    end.

(** A computation that does not touch the state. *)
Definition lift {A} (r : result A) : M A := fun st => (r, st).

Declare Scope py_scope.
Delimit Scope py_scope with py.
Notation "x <- m ;; k" := (bind m (fun x => k))
  (at level 100, m at next level, right associativity) : py_scope.
Notation "m ;; k" := (bind m (fun _ => k))
  (at level 100, right associativity) : py_scope.
Local Open Scope py_scope.

(** *** Primitive operations on the state *)

Definition is_model_ready : M bool :=
  fun st => (Return (_is_model_loaded st), st).

Definition set_model_loaded (b : bool) : M unit :=
  fun st =>
    (Return tt,
     {| _is_model_loaded := b; _mock_tasks := _mock_tasks st;
        objects := objects st; loop_tasks := loop_tasks st |}).

(** Allocation of a new object; returns the reference to it. *)
Definition new_object (r : MusicGenerationResult) : M ref :=
  fun st =>
    (Return (length (objects st)),
     {| _is_model_loaded := _is_model_loaded st;
        _mock_tasks := _mock_tasks st;
        objects := objects st ++ [r]; loop_tasks := loop_tasks st |}).

(** Attribute assignment [o.field = v], as an update [f] of the object
    behind the reference. *)
Definition setattr (o : ref) (f : MusicGenerationResult → MusicGenerationResult)
  : M unit :=
  fun st =>
    (Return tt,
     {| _is_model_loaded := _is_model_loaded st;
        _mock_tasks := _mock_tasks st;
        objects := alter f o (objects st); loop_tasks := loop_tasks st |}).

(** Attribute read [o.field]; [None] only for a reference to no object,
    which Python cannot build. *)
Definition attr {A} (field : MusicGenerationResult → A) (o : ref) (st : state)
  : option A :=
  field <$> objects st !! o.

Definition getattr_task_id (o : ref) : M UUID :=
  fun st => (Return (default 0 (attr task_id o st)), st).

(** Attribute read [o.field]; [d] stands in for a reference to no
    object. *)
Definition getattr {A} (d : A) (field : MusicGenerationResult → A) (o : ref)
  : M A :=
  fun st => (Return (default d (attr field o st)), st).

(** [self._mock_tasks[k] = o] *)
Definition mock_tasks_setitem (k : UUID) (o : ref) : M unit :=
  fun st =>
    (Return tt,
     {| _is_model_loaded := _is_model_loaded st;
        _mock_tasks := <[k := o]> (_mock_tasks st);
        objects := objects st; loop_tasks := loop_tasks st |}).

(** [self._mock_tasks.get(k)] *)
Definition mock_tasks_get (k : UUID) : M (option ref) :=
  fun st => (Return (_mock_tasks st !! k), st).

(** [asyncio.create_task(coro)]: the coroutine is queued on the loop and
    does not run before the caller suspends or returns. *)
Definition create_task (c : coroutine) : M unit :=
  fun st =>
    (Return tt,
     {| _is_model_loaded := _is_model_loaded st;
        _mock_tasks := _mock_tasks st;
        objects := objects st; loop_tasks := loop_tasks st ++ [c] |}).

Definition with_status (s : MusicGenerationStatus) (r : MusicGenerationResult)
  : MusicGenerationResult :=
  {| task_id := task_id r; status := s; audio_url := audio_url r;
     error_message := error_message r; prompt_used := prompt_used r;
     duration_seconds_generated := duration_seconds_generated r |}.

Definition with_audio_url (v : option pystr) (r : MusicGenerationResult)
  : MusicGenerationResult :=
  {| task_id := task_id r; status := status r; audio_url := v;
     error_message := error_message r; prompt_used := prompt_used r;
     duration_seconds_generated := duration_seconds_generated r |}.

Definition with_error_message (v : option pystr) (r : MusicGenerationResult)
  : MusicGenerationResult :=
  {| task_id := task_id r; status := status r; audio_url := audio_url r;
     error_message := v; prompt_used := prompt_used r;
     duration_seconds_generated := duration_seconds_generated r |}.

Definition with_duration_seconds_generated (v : option Z)
    (r : MusicGenerationResult) : MusicGenerationResult :=
  {| task_id := task_id r; status := status r; audio_url := audio_url r;
     error_message := error_message r; prompt_used := prompt_used r;
     duration_seconds_generated := v |}.

(** ** core/inference_service.py *)

(** [load_model], from the moment its [asyncio.sleep(2)] is over. *)
Definition load_model : M unit := set_model_loaded true.

(** [generate_music(request)]; [u] is what [uuid4()] returns if the
    result object gets constructed. *)
Definition generate_music (u : UUID) (request : MusicGenerationRequest)
  : M ref :=
  ready <- is_model_ready ;;
  if negb ready then
    raise (ModelNotReadyError
             (py "AI model is not loaded or ready. Please try again later."))
  else
    task_result <- new_object
      (MusicGenerationResult_new u (prompt request) QUEUED) ;;
    k <- getattr_task_id task_result ;;
    mock_tasks_setitem k task_result ;;
    tid <- getattr_task_id task_result ;;
    create_task (Created tid request) ;;
    ret task_result.

(** *** Standard output

    [print] writes a line to [sys.stdout], and the write can fail: with
    [UnicodeEncodeError] when the stream's encoding has no code for a
    character of the text, with [OSError] or [ValueError] when the
    stream is broken or closed.  What the stream does is not up to the
    service, so it comes from outside: a [stdout] tells, for the turn of
    the loop it is given to, which texts are written ([None]) and which
    raise what. *)

Definition stdout : Type := pystr → option exn.

Definition print (out : stdout) (text : pystr) : M unit :=
  match out text with
  | None => ret tt
  | Some e => raise e
  end.

(** A stream that takes everything, and one with the ASCII encoding. *)
Definition quiet : stdout := fun _ => None.

Definition ascii_stdout : stdout :=
  fun text =>
    if forallb (fun c => c <? 128) text then None
    else Some (UnicodeEncodeError
                 (py "'ascii' codec can't encode character")).

(** A stream that has been closed. *)
Definition closed_stdout : stdout :=
  fun _ => Some (ValueError (py "I/O operation on closed file.")).

(** [str(x)] of an [Optional[str]] inside an f-string. *)
Definition opt_str (x : option pystr) : pystr :=
  match x with
  | Some s => s
  | None => py "None"
  end.

(** The three lines [_simulate_generation] prints. *)
Definition processing_line (tid : UUID) (request : MusicGenerationRequest)
  : pystr :=
  py "Task " ++ uuid_str tid ++ py ": Processing music for prompt '" ++
  prompt request ++ py "'".

Definition completed_line (tid : UUID) (url : option pystr) : pystr :=
  py "Task " ++ uuid_str tid ++ py ": Completed. Audio URL: " ++ opt_str url.

Definition failed_line (tid : UUID) (msg : option pystr) : pystr :=
  py "Task " ++ uuid_str tid ++ py ": Failed. Error: " ++ opt_str msg.

(** The [except Exception as e] clause of [_simulate_generation]
    (lines 105 to 108). *)
Definition _simulate_generation_except
    (out : stdout) (task : ref) (tid : UUID) (e : exn) : M unit :=
  setattr task (with_status FAILED) ;;
  setattr task (with_error_message
                  (Some (py "Generation failed: " ++ exn_str e))) ;;
  msg <- getattr None error_message task ;;
  print out (failed_line tid msg).

(** [_simulate_generation] up to its [await asyncio.sleep(...)] (lines
    85 to 95).  The line printed after the status is set comes before
    the [try]; the sleep sits inside it.  [Some task] when the coroutine
    is suspended in the sleep with its local [task] bound, [None] when
    it is over, because the id is not stored or because the delay could
    not be computed and the [except] clause ran. *)
Definition _simulate_generation_start
    (out : stdout) (tid : UUID) (request : MusicGenerationRequest)
  : M (option ref) :=
  task <- mock_tasks_get tid ;;
  match task with
  | None => ret None
  | Some task =>
      setattr task (with_status PROCESSING) ;;
      print out (processing_line tid request) ;;
      try_except
        (lift (int_truediv (duration_seconds request) 5) ;;
         ret (Some task))
        (fun e => _simulate_generation_except out task tid e ;; ret None)
  end.

Definition audio_url_of (tid : UUID) : pystr :=
  py "http://localhost:8000/static/audio/" ++ uuid_str tid ++ py ".mp3".

(** Lines 97 to 103 of the [try] block, "simulate success or failure":
    the statements between the sleep and the line printed on success. *)
Definition _simulate_success_or_failure
    (task : ref) (tid : UUID) (request : MusicGenerationRequest) : M unit :=
  if py_in (py "fail") (lower (prompt request)) then
    raise (ValueError (py "Simulated failure due to keyword 'fail'."))
  else
    setattr task (with_audio_url (Some (audio_url_of tid))) ;;
    setattr task (with_duration_seconds_generated
                    (Some (duration_seconds request))) ;;
    setattr task (with_status COMPLETED).

(** The rest of the [try] block from the wake-up after the sleep (lines
    97 to 104): the above and the line printed on success. *)
Definition _simulate_generation_try
    (out : stdout) (task : ref) (tid : UUID)
    (request : MusicGenerationRequest) : M unit :=
  _simulate_success_or_failure task tid request ;;
  url <- getattr None audio_url task ;;
  print out (completed_line tid url).

(** [_simulate_generation] from the wake-up after the sleep to its end. *)
Definition _simulate_generation_finish
    (out : stdout) (task : ref) (tid : UUID)
    (request : MusicGenerationRequest) : M unit :=
  try_except (_simulate_generation_try out task tid request)
             (_simulate_generation_except out task tid).

(** [get_generation_status(task_id)]: returns the stored object itself. *)
Definition get_generation_status (tid : UUID) : M ref :=
  task <- mock_tasks_get tid ;;
  match task with
  | None =>
      raise (InvalidTaskError
               (py "Task with ID " ++ uuid_str tid ++ py " not found."))
  | Some task => ret task
  end.

(** ** The event loop

    [wake n out] gives the loop's turn to the [n]-th task made by
    [create_task], with [out] for standard output: the coroutine runs to
    its next suspension or to its end.  A [Raise] is an exception that
    leaves the coroutine, which is then over; the loop keeps it in the
    task object and no caller of the service sees it. *)

Definition set_coroutine (n : nat) (c : coroutine) : M unit :=
  fun st =>
    (Return tt,
     {| _is_model_loaded := _is_model_loaded st;
        _mock_tasks := _mock_tasks st;
        objects := objects st; loop_tasks := <[n := c]> (loop_tasks st) |}).

Definition advance (out : stdout) (c : coroutine) : M coroutine :=
  match c with
  | Created tid request =>
      task <- _simulate_generation_start out tid request ;;
      match task with
      | Some task => ret (Sleeping task tid request)
      | None => ret Finished
      end
  | Sleeping task tid request =>
      _simulate_generation_finish out task tid request ;;
      ret Finished
  | Finished => ret Finished
  end.

Definition wake (n : nat) (out : stdout) : M unit :=
  fun st =>
    match loop_tasks st !! n with
    | None => (Return tt, st)
    | Some c =>
        try_except
          (c' <- advance out c ;; set_coroutine n c')
          (fun e => set_coroutine n Finished ;; raise e) st
    end.

(** What can happen to the process: the start-up sequence finishes
    loading the model, a caller enters one of the two operations of the
    core, or the loop runs a background task, standard output being as
    it is at that moment. *)
Inductive event :=
  | LoadModel
  | GenerateMusic (u : UUID) (request : MusicGenerationRequest)
  | GetGenerationStatus (tid : UUID)
  | Wake (n : nat) (out : stdout).

(** The value an event hands back: the reference the operation returns,
    if it returns one. *)
Definition step (ev : event) : M (option ref) :=
  match ev with
  | LoadModel => load_model ;; ret None
  | GenerateMusic u request =>
      o <- generate_music u request ;; ret (Some o)
  | GetGenerationStatus tid =>
      o <- get_generation_status tid ;; ret (Some o)
  | Wake n out => wake n out ;; ret None
  end.

Fixpoint exec (tr : list event) (st : state) : state :=
  match tr with
  | [] => st
  | ev :: tr' => exec tr' (snd (step ev st))
  end.

(** The calls of [generate_music] that returned along [tr], each with
    the task id read from the object it returned, and the ids alone. *)
Fixpoint accepted (tr : list event) (st : state)
  : list (UUID * MusicGenerationRequest) :=
  match tr with
  | [] => []
  | ev :: tr' =>
      let '(r, st') := step ev st in
      match ev, r with
      | GenerateMusic _ request, Return (Some o) =>
          (default 0 (attr task_id o st'), request) :: accepted tr' st'
      | _, _ => accepted tr' st'
      end
  end.

Definition issued (tr : list event) (st : state) : list UUID :=
  map fst (accepted tr st).

(** The runs the properties are about.  A request handed to
    [generate_music] is an object its constructor accepted, and [uuid4]
    returns an identifier that is not in use: the draw [u] of a
    [generate_music] that gets to construct its result is not yet a key
    of [_mock_tasks]. *)
Definition admissible (ev : event) (st : state) : bool :=
  match ev with
  | GenerateMusic u request =>
      valid_request request &&
      (negb (_is_model_loaded st) || bool_decide (_mock_tasks st !! u = None))
  | _ => true
  end.

Fixpoint admissible_run (tr : list event) (st : state) : bool :=
  match tr with
  | [] => true
  | ev :: tr' => admissible ev st && admissible_run tr' (snd (step ev st))
  end.

(** What a caller of [get_generation_status] reads from the object it is
    handed, before anything else runs. *)
Definition snapshot (tid : UUID) (st : state) : option MusicGenerationResult :=
  match get_generation_status tid st with
  | (Return o, st') => objects st' !! o
  | (Raise _, _) => None
  end.

(** ** api/endpoints.py: the [/generate] handler

    An [HTTPException] keeps the exception it was built from; its
    [detail] text is derived from [str] of that exception. *)

Inductive http (A : Type) :=
  | Ok (a : A)
  | HTTPException (status_code : Z) (cause : exn).
Arguments Ok {A} a.
Arguments HTTPException {A} status_code cause.

Definition getattr_status (o : ref) : M MusicGenerationStatus :=
  fun st => (Return (default PENDING (attr status o st)), st).

Definition endpoint_generate_music (u : UUID) (request : GenerateMusicRequest)
  : state → http GenerateMusicResponse * state :=
  fun st =>
    let body :=
      domain_request <- lift (MusicGenerationRequest_new
                                (api_prompt request)
                                (api_duration_seconds request)
                                (api_genre request) (api_tempo request)) ;;
      task_result <- generate_music u domain_request ;;
      tid <- getattr_task_id task_result ;;
      s <- getattr_status task_result ;;
      ret {| resp_task_id := tid; resp_status := s;
             resp_message :=
               py "Music generation task initiated successfully. Check status using GET /status/{task_id}" |} in
    match body st with
    | (Return response, st') => (Ok response, st')
    | (Raise e, st') =>
        if is_ModelNotReadyError e then (HTTPException 503 e, st')
        else (HTTPException 500 e, st')
    end.

(** ** api/endpoints.py: the [/status/{task_id}] and [/health] handlers *)

Record GetMusicStatusResponse := {
  gs_task_id : UUID;
  gs_status : MusicGenerationStatus;
  gs_prompt_used : pystr;
  gs_audio_url : option pystr;
  gs_duration_seconds_generated : option Z;
  gs_error_message : option pystr
}.

Definition endpoint_get_music_status (tid : UUID)
  : state → http GetMusicStatusResponse * state :=
  fun st =>
    let body :=
      task_result <- get_generation_status tid ;;
      i <- getattr_task_id task_result ;;
      s <- getattr_status task_result ;;
      p <- getattr [] prompt_used task_result ;;
      a <- getattr None audio_url task_result ;;
      d <- getattr None duration_seconds_generated task_result ;;
      m <- getattr None error_message task_result ;;
      ret {| gs_task_id := i; gs_status := s; gs_prompt_used := p;
             gs_audio_url := a; gs_duration_seconds_generated := d;
             gs_error_message := m |} in
    match body st with
    | (Return response, st') => (Ok response, st')
    | (Raise e, st') =>
        if is_InvalidTaskError e then (HTTPException 404 e, st')
        else (HTTPException 500 e, st')
    end.

(** The body of the health answer, [{"status": ..., "model_ready": ...}],
    returned as it is or carried as the [detail] of an [HTTPException]. *)
Record health_body := {
  health_status : pystr;
  health_model_ready : bool
}.

Inductive health_result :=
  | HealthOk (body : health_body)
  | HealthException (status_code : Z) (detail : health_body).

(** [is_model_ready] reads the flag and cannot raise; the last branch is
    only there for the type of the monad (the framework answers 500 to an
    exception that leaves a handler). *)
Definition endpoint_health_check : state → health_result * state :=
  fun st =>
    let status_msg := py "OK" in
    match is_model_ready st with
    | (Return model_ready, st') =>
        if negb model_ready then
          let status_msg := py "Model not loaded" in
          (HealthException 503
             {| health_status := status_msg;
                health_model_ready := model_ready |}, st')
        else
          (HealthOk {| health_status := status_msg;
                       health_model_ready := model_ready |}, st')
    | (Raise _, st') =>
        (HealthException 500
           {| health_status := status_msg; health_model_ready := false |},
         st')
    end.

(** ** core/inference_service.py: the singleton constructor

    [InferenceService(...)] runs [__new__] and then [__init__] on what
    [__new__] returned.  The class keeps its one instance in [_instance];
    an instance is marked by its attribute [_initialized].  The instances
    that [object.__new__] made are kept by position, each with whether it
    has that attribute; [printed] counts the lines
    ["InferenceService initialized."] written. *)







(** ** Vocabulary of the properties *)

(** The failure trigger of the simulated workload. *)
Definition fail_trigger (request : MusicGenerationRequest) : bool :=
  py_in (py "fail") (lower (prompt request)).

Definition failure_text : pystr :=
  py "Generation failed: " ++ py "Simulated failure due to keyword 'fail'.".

(** What the last segment of [_simulate_generation] does to its object. *)
Definition finish_update (tid : UUID) (request : MusicGenerationRequest)
  : MusicGenerationResult → MusicGenerationResult :=
  if fail_trigger request then
    with_error_message (Some failure_text) ∘ with_status FAILED
  else
    with_status COMPLETED ∘
    with_duration_seconds_generated (Some (duration_seconds request)) ∘
    with_audio_url (Some (audio_url_of tid)).

Definition outcome (tid : UUID) (request : MusicGenerationRequest)
  : MusicGenerationResult :=
  finish_update tid request
    (MusicGenerationResult_new tid (prompt request) PROCESSING).

(** What the [except] clause writes for the exception [e], and the
    record it leaves when [e] came from the line printed on success. *)
Definition except_update (e : exn)
  : MusicGenerationResult → MusicGenerationResult :=
  with_error_message (Some (py "Generation failed: " ++ exn_str e)) ∘
  with_status FAILED.

Definition spoiled (tid : UUID) (request : MusicGenerationRequest) (e : exn)
  : MusicGenerationResult :=
  except_update e (outcome tid request).

(** What printing [text] comes to. *)
Definition written (out : stdout) (text : pystr) : result unit :=
  match out text with
  | None => Return tt
  | Some e => Raise e
  end.


(** The status moves a record may make in one step. *)
Definition transition (s s' : MusicGenerationStatus) : Prop :=
  s' = s ∨ (s = QUEUED ∧ s' = PROCESSING) ∨
  (s = PROCESSING ∧ (s' = COMPLETED ∨ s' = FAILED)).

Definition terminal (s : MusicGenerationStatus) : Prop :=
  s = COMPLETED ∨ s = FAILED.

(** Which of the result fields are populated, by status. *)
Definition populated_by_status (r : MusicGenerationResult) : Prop :=
  match status r with
  | COMPLETED =>
      is_Some (audio_url r) ∧ is_Some (duration_seconds_generated r) ∧
      error_message r = None
  | FAILED =>
      is_Some (error_message r) ∧ audio_url r = None ∧
      duration_seconds_generated r = None
  | _ =>
      audio_url r = None ∧ duration_seconds_generated r = None ∧
      error_message r = None
  end.

(** Task [n] of the loop works for the submission [(tid, request)]: the
    coroutine and the object it mutates move together.  A coroutine that
    is over leaves the outcome of the simulation, or, when a line could
    not be printed, what it had written by then: the record still
    PROCESSING (the line before the [try]), or the successful one turned
    FAILED by the [except] clause (the line after the assignments).
    [runs] adds where coroutine and object are found and that the
    request is a validated one. *)
Inductive tracks (n : nat) (tid : UUID) (request : MusicGenerationRequest)
  : coroutine → MusicGenerationResult → Prop :=
  | tracks_created :
      tracks n tid request (Created tid request)
        (MusicGenerationResult_new tid (prompt request) QUEUED)
  | tracks_sleeping :
      tracks n tid request (Sleeping n tid request)
        (MusicGenerationResult_new tid (prompt request) PROCESSING)
  | tracks_finished :
      tracks n tid request Finished (outcome tid request)
  | tracks_silenced :
      tracks n tid request Finished
        (MusicGenerationResult_new tid (prompt request) PROCESSING)
  | tracks_spoiled e :
      fail_trigger request = false →
      tracks n tid request Finished (spoiled tid request e).

Definition runs (st : state) (n : nat) (tid : UUID)
    (request : MusicGenerationRequest) : Prop :=
  ∃ c r, loop_tasks st !! n = Some c ∧ objects st !! n = Some r ∧
         _mock_tasks st !! tid = Some n ∧ valid_request request = true ∧
         tracks n tid request c r.

(** The invariant of the states of admissible runs: the [n]-th
    object belongs to the [n]-th task, and the dictionary maps each
    object's id back to it. *)
Record Inv (st : state) : Prop := {
  inv_len : length (loop_tasks st) = length (objects st);
  inv_keys : ∀ k o, _mock_tasks st !! k = Some o → attr task_id o st = Some k;
  inv_runs : ∀ n, (n < length (objects st))%nat → ∃ tid request, runs st n tid request
}.

(** The part of it that needs no assumption on the draws. *)
Definition keyed (st : state) : Prop :=
  ∀ k o, _mock_tasks st !! k = Some o →
    ∃ r, objects st !! o = Some r ∧ task_id r = k ∧ status r ≠ PENDING.

(** The state in which task [n] has become [c] and its object [r]. *)
Definition moved (n : nat) (c : coroutine) (r : MusicGenerationResult)
    (st : state) : state :=
  {| _is_model_loaded := _is_model_loaded st;
     _mock_tasks := _mock_tasks st;
     objects := <[n := r]> (objects st);
     loop_tasks := <[n := c]> (loop_tasks st) |}.


(** The answer of the status handler for a record. *)
Definition status_response_of (r : MusicGenerationResult)
  : GetMusicStatusResponse :=
  {| gs_task_id := task_id r; gs_status := status r;
     gs_prompt_used := prompt_used r; gs_audio_url := audio_url r;
     gs_duration_seconds_generated := duration_seconds_generated r;
     gs_error_message := error_message r |}.

(** Every task that has not started yet finds its id in the dictionary. *)
Definition created_stored (st : state) : Prop :=
  ∀ n tid request, loop_tasks st !! n = Some (Created tid request) →
    is_Some (_mock_tasks st !! tid).




(** ** Sample data *)

Definition sample_request (p : string) (d : Z) : MusicGenerationRequest :=
  {| prompt := py p; duration_seconds := d; genre := None; tempo := None |}.

Definition calm_piano : MusicGenerationRequest :=
  sample_request "A calm piano piece" 30.

Definition please_fail : MusicGenerationRequest :=
  sample_request "please fail this generation" 10.

(** A valid prompt with a character outside ASCII (U+00E9). *)
Definition cafe_del_mar : MusicGenerationRequest :=
  {| prompt := py "Caf" ++ [233] ++ py " del mar chill";
     duration_seconds := 10; genre := None; tempo := None |}.

(** The process once the start-up sequence has loaded the model. *)
Definition ready : state := snd (load_model initial).

(** A hundred submissions in a row, the background task of each one
    started right after the next submission came in. *)
Definition hundred_submissions : list event :=
  LoadModel ::
  flat_map (fun i => [GenerateMusic (N.of_nat i) calm_piano;
                      Wake (pred i) quiet])
           (seq 0 100).

(** A prompt of 31 characters with a duration the HTTP schema accepts. *)
Definition long_prompt_request : GenerateMusicRequest :=
  {| api_prompt := py "A slow waltz for two old pianos";
     api_duration_seconds := 30; api_genre := None; api_tempo := Some 90%Z |}.

(** A request both layers accept. *)
Definition short_prompt_request : GenerateMusicRequest :=
  {| api_prompt := py "A calm piano piece"; api_duration_seconds := 30;
     api_genre := None; api_tempo := None |}.

(** Unfolding a turn of the loop down to the primitive operations. *)
Ltac unfold_wake :=
  unfold wake, try_except, bind, advance, _simulate_generation_start,
    _simulate_generation_finish, _simulate_generation_try,
    _simulate_generation_except, _simulate_success_or_failure,
    mock_tasks_get, try_except, bind, lift, print, getattr, attr, setattr,
    set_coroutine, raise, ret.

(** * Properties *)

(** ** Monad and state equations *)

Lemma generate_music_not_ready u request st :
  _is_model_loaded st = false →
  generate_music u request st =
    (Raise (ModelNotReadyError
              (py "AI model is not loaded or ready. Please try again later.")),
     st).
Proof.
  intros H. unfold generate_music, bind, is_model_ready. rewrite H. reflexivity.
Qed.

Lemma generate_music_ready u request st :
  _is_model_loaded st = true →
  generate_music u request st =
    (Return (length (objects st)),
     {| _is_model_loaded := true;
        _mock_tasks := <[u := length (objects st)]> (_mock_tasks st);
        objects := objects st ++
                   [MusicGenerationResult_new u (prompt request) QUEUED];
        loop_tasks := loop_tasks st ++ [Created u request] |}).
Proof.
  intros H. unfold generate_music, bind, is_model_ready. rewrite H. cbn.
  unfold attr. cbn. rewrite list_lookup_middle by reflexivity. cbn.
  rewrite H. reflexivity.
Qed.

Lemma validated_Return {A} checks (a r : A) :
  validated checks a = Return r ↔ forallb snd checks = true ∧ r = a.
Proof.
  unfold validated, failed_fields.
  induction checks as [|[loc []] checks IH]; cbn.
  - split; [intros [= <-]; done | intros [_ ->]; done].
  - exact IH.
  - split; [discriminate | intros [? _]; discriminate].
Qed.

Lemma validated_Raise {A} checks (a : A) e :
  validated checks a = Raise e →
  forallb snd checks = false ∧ ∃ loc, e = ValidationError loc.
Proof.
  unfold validated. destruct (failed_fields checks) as [|l ls] eqn:Hff.
  - discriminate.
  - intros [= <-]. split; [|eauto].
    destruct (forallb snd checks) eqn:Hall; [|done].
    assert (validated checks a = Return a) as H.
    { apply validated_Return. done. }
    unfold validated in H. rewrite Hff in H. discriminate.
Qed.

Lemma valid_request_bounds request :
  valid_request request = true →
  (5 ≤ length (prompt request) ≤ 30)%nat ∧
  (5 ≤ duration_seconds request ≤ 180)%Z.
Proof.
  unfold valid_request, MusicGenerationRequest_new. intros H.
  destruct (validated _ _) as [r|e] eqn:Hv; [|discriminate].
  apply validated_Return in Hv as [Hv _]. cbn in Hv.
  unfold len_between, int_between in Hv.
  rewrite ?andb_true_iff, ?Nat.leb_le, ?Z.leb_le in Hv. lia.
Qed.

Lemma valid_request_delay request :
  valid_request request = true →
  int_truediv (duration_seconds request) 5 = Return tt.
Proof.
  intros H. apply valid_request_bounds in H as [_ H]. unfold int_truediv.
  assert (180 < 5 * (2 ^ 1024 - 2 ^ 970))%Z as Hbig by reflexivity.
  destruct (Z.leb_spec (5 * (2 ^ 1024 - 2 ^ 970)) (Z.abs (duration_seconds request)));
    [lia | reflexivity].
Qed.

Lemma wake_none n out st :
  loop_tasks st !! n = None → wake n out st = (Return tt, st).
Proof. intros H. unfold wake. rewrite H. reflexivity. Qed.

Lemma wake_created n out tid request o st :
  loop_tasks st !! n = Some (Created tid request) →
  _mock_tasks st !! tid = Some o →
  out (processing_line tid request) = None →
  int_truediv (duration_seconds request) 5 = Return tt →
  wake n out st =
    (Return tt,
     {| _is_model_loaded := _is_model_loaded st;
        _mock_tasks := _mock_tasks st;
        objects := alter (with_status PROCESSING) o (objects st);
        loop_tasks := <[n := Sleeping o tid request]> (loop_tasks st) |}).
Proof.
  intros Hn Ho Hout Hd. unfold_wake. rewrite Hn, Ho. cbn.
  rewrite Hout, Hd. reflexivity.
Qed.

(** The line before the [try] cannot be printed: the exception leaves
    the coroutine, which is over with its record still PROCESSING. *)
Lemma wake_created_silenced n out tid request o e st :
  loop_tasks st !! n = Some (Created tid request) →
  _mock_tasks st !! tid = Some o →
  out (processing_line tid request) = Some e →
  wake n out st =
    (Raise e,
     {| _is_model_loaded := _is_model_loaded st;
        _mock_tasks := _mock_tasks st;
        objects := alter (with_status PROCESSING) o (objects st);
        loop_tasks := <[n := Finished]> (loop_tasks st) |}).
Proof.
  intros Hn Ho Hout. unfold_wake. rewrite Hn, Ho. cbn.
  rewrite Hout. reflexivity.
Qed.

Lemma wake_created_unknown n out tid request st :
  loop_tasks st !! n = Some (Created tid request) →
  _mock_tasks st !! tid = None →
  wake n out st =
    (Return tt,
     {| _is_model_loaded := _is_model_loaded st;
        _mock_tasks := _mock_tasks st;
        objects := objects st;
        loop_tasks := <[n := Finished]> (loop_tasks st) |}).
Proof.
  intros Hn Ho. unfold_wake. rewrite Hn, Ho. reflexivity.
Qed.

(** The simulated failure: the [except] clause records it and prints
    its line; if that line cannot be printed the exception leaves the
    coroutine, the record being FAILED already. *)
Lemma wake_sleeping_fail n out task tid request r st :
  loop_tasks st !! n = Some (Sleeping task tid request) →
  objects st !! task = Some r →
  fail_trigger request = true →
  wake n out st =
    (written out (failed_line tid (Some failure_text)),
     {| _is_model_loaded := _is_model_loaded st;
        _mock_tasks := _mock_tasks st;
        objects := alter (finish_update tid request) task (objects st);
        loop_tasks := <[n := Finished]> (loop_tasks st) |}).
Proof.
  intros Hn Hr Ht. unfold finish_update, written. rewrite Ht.
  unfold fail_trigger in Ht. unfold_wake. rewrite Hn. cbn. rewrite Ht. cbn.
  rewrite !list_lookup_alter_eq, Hr. cbn. rewrite list_alter_alter_eq.
  change (py "Generation failed: " ++
          py "Simulated failure due to keyword 'fail'.") with failure_text.
  destruct (out (failed_line tid (Some failure_text))); reflexivity.
Qed.

(** Success, with its line printed. *)
Lemma wake_sleeping_ok n out task tid request r st :
  loop_tasks st !! n = Some (Sleeping task tid request) →
  objects st !! task = Some r →
  fail_trigger request = false →
  out (completed_line tid (Some (audio_url_of tid))) = None →
  wake n out st =
    (Return tt,
     {| _is_model_loaded := _is_model_loaded st;
        _mock_tasks := _mock_tasks st;
        objects := alter (finish_update tid request) task (objects st);
        loop_tasks := <[n := Finished]> (loop_tasks st) |}).
Proof.
  intros Hn Hr Ht Hout. unfold finish_update. rewrite Ht.
  unfold fail_trigger in Ht. unfold_wake. rewrite Hn. cbn. rewrite Ht. cbn.
  rewrite !list_lookup_alter_eq, Hr. cbn. rewrite Hout.
  rewrite !list_alter_alter_eq. reflexivity.
Qed.

(** Success, but its line cannot be printed: the [except] clause turns
    the record FAILED, the audio URL and the duration staying set. *)
Lemma wake_sleeping_spoiled n out task tid request r e st :
  loop_tasks st !! n = Some (Sleeping task tid request) →
  objects st !! task = Some r →
  fail_trigger request = false →
  out (completed_line tid (Some (audio_url_of tid))) = Some e →
  wake n out st =
    (written out
       (failed_line tid (Some (py "Generation failed: " ++ exn_str e))),
     {| _is_model_loaded := _is_model_loaded st;
        _mock_tasks := _mock_tasks st;
        objects :=
          alter (except_update e ∘ finish_update tid request) task
            (objects st);
        loop_tasks := <[n := Finished]> (loop_tasks st) |}).
Proof.
  intros Hn Hr Ht Hout. unfold finish_update, except_update, written.
  rewrite Ht. unfold fail_trigger in Ht. unfold_wake. rewrite Hn. cbn.
  rewrite Ht. cbn. rewrite !list_lookup_alter_eq, Hr. cbn. rewrite Hout.
  cbn. rewrite !list_lookup_alter_eq, Hr. cbn.
  rewrite !list_alter_alter_eq.
  destruct (out (failed_line tid
                   (Some (py "Generation failed: " ++ exn_str e))));
    reflexivity.
Qed.

Lemma wake_finished n out st :
  loop_tasks st !! n = Some Finished → wake n out st = (Return tt, st).
Proof.
  intros Hn. unfold wake. rewrite Hn. cbn.
  rewrite list_insert_id by exact Hn. destruct st; reflexivity.
Qed.

(** ** Tasks and their objects *)

Lemma alter_lookup {A} (f : A → A) (l : list A) i x :
  l !! i = Some x → alter f i l = <[i := f x]> l.
Proof.
  intros H. apply list_eq. intros j. destruct (decide (i = j)) as [->|Hne].
  - rewrite list_lookup_alter_eq, H. cbn.
    rewrite list_lookup_insert_eq; [reflexivity|]. eapply lookup_lt_Some, H.
  - rewrite list_lookup_alter_ne, list_lookup_insert_ne by done. reflexivity.
Qed.

Lemma moved_same n c r st :
  loop_tasks st !! n = Some c → objects st !! n = Some r → moved n c r st = st.
Proof.
  intros Hc Hr. unfold moved. rewrite !list_insert_id by done.
  destruct st; reflexivity.
Qed.

Lemma tracks_task_id n tid request c r :
  tracks n tid request c r → task_id r = tid.
Proof.
  destruct 1; try reflexivity; unfold spoiled, except_update, outcome,
    finish_update; destruct (fail_trigger request); reflexivity.
Qed.


Lemma outcome_status tid request :
  status (outcome tid request) =
    if fail_trigger request then FAILED else COMPLETED.
Proof.
  unfold outcome, finish_update. destruct (fail_trigger request); reflexivity.
Qed.



(** One turn of task [n], when it works for [(tid, request)]. *)
Lemma wake_runs st n out tid request :
  runs st n tid request →
  ∃ c r c' r' res,
    loop_tasks st !! n = Some c ∧ objects st !! n = Some r ∧
    tracks n tid request c r ∧ tracks n tid request c' r' ∧
    transition (status r) (status r') ∧
    (c' = Finished ∨ c = Created tid request ∧ c' = Sleeping n tid request) ∧
    ((∀ text, out text = None) →
     res = Return tt ∧
     (c = Created tid request → c' = Sleeping n tid request) ∧
     (c = Sleeping n tid request → r' = outcome tid request) ∧
     (c = Finished → r' = r)) ∧
    wake n out st = (res, moved n c' r' st).
Proof.
  intros (c & r & Hc & Hr & Hk & Hv & Ht). exists c, r.
  destruct Ht as [| | | |e Hf].
  - (* not started *)
    destruct (out (processing_line tid request)) as [e|] eqn:Hout.
    + exists Finished, (MusicGenerationResult_new tid (prompt request) PROCESSING),
        (Raise e).
      split_and!; [done | done | constructor | apply tracks_silenced | | | |].
      * right; left; done.
      * left; done.
      * intros Hq. rewrite Hq in Hout. discriminate.
      * rewrite (wake_created_silenced _ _ _ _ _ _ _ Hc Hk Hout).
        rewrite (alter_lookup _ _ _ _ Hr). reflexivity.
    + exists (Sleeping n tid request),
        (MusicGenerationResult_new tid (prompt request) PROCESSING),
        (Return tt).
      split_and!; [done | done | constructor | apply tracks_sleeping | | | |].
      * right; left; done.
      * right; done.
      * intros _. split_and!; try done.
      * rewrite (wake_created _ _ _ _ _ _ Hc Hk Hout
                   (valid_request_delay _ Hv)).
        rewrite (alter_lookup _ _ _ _ Hr). reflexivity.
  - (* asleep *)
    destruct (fail_trigger request) eqn:Hf.
    + exists Finished, (outcome tid request),
        (written out (failed_line tid (Some failure_text))).
      split_and!; [done | done | constructor | apply tracks_finished | | | |].
      * right; right. split; [done|]. rewrite outcome_status, Hf. auto.
      * left; done.
      * intros Hq. unfold written. rewrite Hq. done.
      * rewrite (wake_sleeping_fail _ _ _ _ _ _ _ Hc Hr Hf).
        rewrite (alter_lookup _ _ _ _ Hr). reflexivity.
    + destruct (out (completed_line tid (Some (audio_url_of tid))))
        as [e|] eqn:Hout.
      * exists Finished, (spoiled tid request e),
          (written out (failed_line tid
                          (Some (py "Generation failed: " ++ exn_str e)))).
        split_and!; [done | done | constructor | apply tracks_spoiled, Hf | | | |].
        -- right; right. split; [done|]. right. reflexivity.
        -- left; done.
        -- intros Hq. rewrite Hq in Hout. discriminate.
        -- rewrite (wake_sleeping_spoiled _ _ _ _ _ _ _ _ Hc Hr Hf Hout).
           rewrite (alter_lookup _ _ _ _ Hr). reflexivity.
      * exists Finished, (outcome tid request), (Return tt).
        split_and!; [done | done | constructor | apply tracks_finished | | | |].
        -- right; right. split; [done|]. rewrite outcome_status, Hf. auto.
        -- left; done.
        -- intros _. done.
        -- rewrite (wake_sleeping_ok _ _ _ _ _ _ _ Hc Hr Hf Hout).
           rewrite (alter_lookup _ _ _ _ Hr). reflexivity.
  - exists Finished, (outcome tid request), (Return tt).
    split_and!; [done | done | constructor | apply tracks_finished | | | |].
    + left; done.
    + left; done.
    + intros _. done.
    + rewrite (wake_finished _ _ _ Hc), moved_same; done.
  - exists Finished,
      (MusicGenerationResult_new tid (prompt request) PROCESSING), (Return tt).
    split_and!; [done | done | apply tracks_silenced | apply tracks_silenced | | | |].
    + left; done.
    + left; done.
    + intros _. done.
    + rewrite (wake_finished _ _ _ Hc), moved_same; done.
  - exists Finished, (spoiled tid request e), (Return tt).
    split_and!; [done | done | apply tracks_spoiled, Hf | apply tracks_spoiled, Hf | | | |].
    + left; done.
    + left; done.
    + intros _. done.
    + rewrite (wake_finished _ _ _ Hc), moved_same; done.
Qed.

Lemma wake_effect st n out :
  Inv st →
  snd (wake n out st) = st ∨
  ∃ tid request c r c' r' res,
    loop_tasks st !! n = Some c ∧ objects st !! n = Some r ∧
    _mock_tasks st !! tid = Some n ∧ valid_request request = true ∧
    tracks n tid request c r ∧ tracks n tid request c' r' ∧
    transition (status r) (status r') ∧
    wake n out st = (res, moved n c' r' st).
Proof.
  intros HI. destruct (loop_tasks st !! n) as [c|] eqn:Hc.
  - right. assert (n < length (objects st))%nat as Hlt.
    { rewrite <- (inv_len _ HI). eapply lookup_lt_Some, Hc. }
    destruct (inv_runs _ HI n Hlt) as (tid & request & Hruns).
    destruct (wake_runs _ _ out _ _ Hruns)
      as (c0 & r & c' & r' & res & H1 & H2 & H3 & H4 & H5 & _ & _ & H6).
    destruct Hruns as (? & ? & ? & ? & Hk & Hv & ?).
    exists tid, request, c0, r, c', r', res. split_and!; try done; congruence.
  - left. rewrite (wake_none _ _ _ Hc). reflexivity.
Qed.

Lemma step_wake n out st :
  snd (step (Wake n out) st) = snd (wake n out st).
Proof.
  unfold step, bind. destruct (wake n out st) as [[[]|e] st']; reflexivity.
Qed.

Lemma step_generate_music u request st :
  snd (step (GenerateMusic u request) st) = snd (generate_music u request st).
Proof.
  unfold step, bind. destruct (generate_music u request st) as [[]]; reflexivity.
Qed.

Lemma step_get_generation_status tid st :
  snd (step (GetGenerationStatus tid) st) = st.
Proof.
  cbn. unfold bind, get_generation_status, bind, mock_tasks_get.
  destruct (_mock_tasks st !! tid); reflexivity.
Qed.

(** ** The invariant *)

Lemma Inv_initial : Inv initial.
Proof.
  split; cbn.
  - reflexivity.
  - intros k o H. rewrite lookup_empty in H. discriminate.
  - intros n H. lia.
Qed.

Lemma runs_moved_same st n tid request c r c' r' :
  loop_tasks st !! n = Some c → objects st !! n = Some r →
  _mock_tasks st !! tid = Some n → valid_request request = true →
  tracks n tid request c' r' →
  runs (moved n c' r' st) n tid request.
Proof.
  intros Hc Hr Hk Hv Ht. exists c', r'. cbn. split_and!; try done.
  - apply list_lookup_insert_eq. eapply lookup_lt_Some, Hc.
  - apply list_lookup_insert_eq. eapply lookup_lt_Some, Hr.
Qed.

Lemma runs_moved_other st n m tid request c' r' :
  m ≠ n → runs st m tid request → runs (moved n c' r' st) m tid request.
Proof.
  intros Hne (c & r & Hc & Hr & Hk & Hv & Ht). exists c, r. cbn.
  rewrite !list_lookup_insert_ne by done. done.
Qed.

Lemma Inv_moved st n tid request c r c' r' :
  Inv st →
  loop_tasks st !! n = Some c → objects st !! n = Some r →
  _mock_tasks st !! tid = Some n → valid_request request = true →
  tracks n tid request c r → tracks n tid request c' r' →
  Inv (moved n c' r' st).
Proof.
  intros HI Hc Hr Hk Hv Ht Ht'. split; cbn.
  - rewrite !length_insert. apply HI.
  - intros k o Hko. pose proof (inv_keys _ HI k o Hko) as Ha.
    unfold attr in *. cbn. destruct (decide (o = n)) as [->|Hne].
    + rewrite list_lookup_insert_eq by (eapply lookup_lt_Some, Hr). cbn.
      rewrite Hr in Ha. cbn in Ha.
      rewrite (tracks_task_id _ _ _ _ _ Ht) in Ha.
      rewrite (tracks_task_id _ _ _ _ _ Ht'). exact Ha.
    + rewrite list_lookup_insert_ne by done. exact Ha.
  - rewrite length_insert. intros m Hm. destruct (decide (m = n)) as [->|Hne].
    + exists tid, request. eapply runs_moved_same; eauto.
    + destruct (inv_runs _ HI m Hm) as (tid' & request' & Hruns).
      exists tid', request'. apply runs_moved_other; done.
Qed.

Lemma Inv_wake n out st : Inv st → Inv (snd (wake n out st)).
Proof.
  intros HI. destruct (wake_effect st n out HI) as [->|H]; [exact HI|].
  destruct H as (tid & request & c & r & c' & r' & res & Hc & Hr & Hk & Hv
                 & Ht & Ht' & _ & ->).
  cbn. eapply Inv_moved; eauto.
Qed.


Lemma runs_generate_music u request m tid request' st :
  _mock_tasks st !! u = None →
  runs st m tid request' →
  runs (snd (generate_music u request st)) m tid request'.
Proof.
  intros Hu Hruns. destruct (_is_model_loaded st) eqn:Hl.
  - rewrite (generate_music_ready _ _ _ Hl). cbn.
    destruct Hruns as (c & r & Hc & Hr & Hk & Hv & Ht). exists c, r. cbn.
    split_and!; try done.
    + rewrite lookup_app_l; [done|]. eapply lookup_lt_Some, Hc.
    + rewrite lookup_app_l; [done|]. eapply lookup_lt_Some, Hr.
    + rewrite lookup_insert_ne; [done|]. congruence.
  - rewrite (generate_music_not_ready _ _ _ Hl). exact Hruns.
Qed.

Lemma runs_generate_music_new u request st :
  Inv st → _is_model_loaded st = true → valid_request request = true →
  runs (snd (generate_music u request st)) (length (objects st)) u request.
Proof.
  intros HI Hl Hv. rewrite (generate_music_ready _ _ _ Hl). cbn.
  eexists _, _. cbn. split_and!.
  - rewrite <- (inv_len _ HI). apply list_lookup_middle. reflexivity.
  - apply list_lookup_middle. reflexivity.
  - apply lookup_insert_eq.
  - exact Hv.
  - constructor.
Qed.

Lemma Inv_generate_music u request st :
  Inv st → valid_request request = true → _mock_tasks st !! u = None →
  Inv (snd (generate_music u request st)).
Proof.
  intros HI Hv Hu. destruct (_is_model_loaded st) eqn:Hl.
  2: { rewrite (generate_music_not_ready _ _ _ Hl). exact HI. }
  split.
  - rewrite (generate_music_ready _ _ _ Hl). cbn.
    rewrite !length_app. cbn. rewrite (inv_len _ HI). reflexivity.
  - rewrite (generate_music_ready _ _ _ Hl). cbn. intros k o Hko.
    unfold attr. cbn. destruct (decide (u = k)) as [->|Hne].
    + rewrite lookup_insert_eq in Hko. injection Hko as <-.
      rewrite list_lookup_middle by reflexivity. reflexivity.
    + rewrite lookup_insert_ne in Hko by done.
      pose proof (inv_keys _ HI k o Hko) as Ha. unfold attr in Ha.
      rewrite lookup_app_l; [done|].
      destruct (objects st !! o) eqn:Ho; [|discriminate].
      eapply lookup_lt_Some, Ho.
  - intros n Hn.
    assert (length (objects (snd (generate_music u request st))) =
            S (length (objects st))) as Hlen.
    { rewrite (generate_music_ready _ _ _ Hl). cbn.
      rewrite length_app. cbn. lia. }
    rewrite Hlen in Hn.
    destruct (decide (n = length (objects st))) as [->|Hne].
    + exists u, request. apply runs_generate_music_new; done.
    + destruct (inv_runs _ HI n) as (tid & request' & Hruns); [lia|].
      exists tid, request'. apply runs_generate_music; done.
Qed.

Lemma admissible_generate_music u request st :
  admissible (GenerateMusic u request) st = true →
  valid_request request = true ∧
  (_is_model_loaded st = false ∨ _mock_tasks st !! u = None).
Proof.
  unfold admissible. intros H. apply andb_true_iff in H as [Hv H].
  split; [exact Hv|]. apply orb_true_iff in H as [H|H].
  - left. apply negb_true_iff, H.
  - right. apply bool_decide_eq_true in H. exact H.
Qed.

Lemma Inv_step ev st :
  Inv st → admissible ev st = true → Inv (snd (step ev st)).
Proof.
  intros HI Hf. destruct ev as [|u request|tid|n out].
  - destruct HI. split; done.
  - rewrite step_generate_music.
    destruct (admissible_generate_music _ _ _ Hf) as [Hv [Hl|Hu]].
    + rewrite (generate_music_not_ready _ _ _ Hl). exact HI.
    + apply Inv_generate_music; done.
  - rewrite step_get_generation_status. exact HI.
  - rewrite step_wake. apply Inv_wake, HI.
Qed.

Lemma Inv_exec tr st :
  Inv st → admissible_run tr st = true → Inv (exec tr st).
Proof.
  revert st. induction tr as [|ev tr IH]; intros st HI Hf; cbn in *.
  - exact HI.
  - apply andb_true_iff in Hf as [Hf1 Hf2]. apply IH; [|exact Hf2].
    apply Inv_step; done.
Qed.


(** ** A turn of a task, in any state *)

Lemma insert_coroutine (l : list coroutine) n c c' :
  l !! n = Some c →
  (∀ tid request, c' ≠ Created tid request) →
  ((∀ tid request, c ≠ Created tid request) → c' = Finished) →
  length (<[n := c']> l) = length l ∧
  (∀ m, m ≠ n → <[n := c']> l !! m = l !! m) ∧
  (l !! n = Some Finished → <[n := c']> l !! n = Some Finished) ∧
  (∀ tid request, <[n := c']> l !! n ≠ Some (Created tid request)) ∧
  (∀ c0, l !! n = Some c0 → (∀ tid request, c0 ≠ Created tid request) →
         <[n := c']> l !! n = Some Finished).
Proof.
  intros Hc Hno Hfin.
  assert (<[n := c']> l !! n = Some c') as Hn.
  { apply list_lookup_insert_eq. eapply lookup_lt_Some, Hc. }
  rewrite Hn, length_insert. split_and!; try done.
  - intros m Hne. apply list_lookup_insert_ne. done.
  - intros Hf. f_equal. apply Hfin. intros ? ? ->. congruence.
  - intros tid request [= ->]. eapply Hno. reflexivity.
  - intros c0 Hc0 Hc0'. f_equal. apply Hfin. congruence.
Qed.

Lemma wake_cases n out st :
  ∃ res o f cs,
    wake n out st =
      (res, {| _is_model_loaded := _is_model_loaded st;
               _mock_tasks := _mock_tasks st;
               objects := alter f o (objects st);
               loop_tasks := cs |}) ∧
    (∀ r, task_id (f r) = task_id r ∧ prompt_used (f r) = prompt_used r ∧
          (status r ≠ PENDING → status (f r) ≠ PENDING)) ∧
    length cs = length (loop_tasks st) ∧
    (∀ m, m ≠ n → cs !! m = loop_tasks st !! m) ∧
    (loop_tasks st !! n = Some Finished → cs !! n = Some Finished) ∧
    (∀ tid request, cs !! n ≠ Some (Created tid request)) ∧
    (∀ c, loop_tasks st !! n = Some c →
          (∀ tid request, c ≠ Created tid request) →
          cs !! n = Some Finished).
Proof.
  assert (∀ res : result unit, ∃ (res' : result unit) o f cs,
            (res, st) =
              (res', {| _is_model_loaded := _is_model_loaded st;
                        _mock_tasks := _mock_tasks st;
                        objects := alter f o (objects st);
                        loop_tasks := cs |}) ∧
            (∀ r : MusicGenerationResult,
               task_id (f r) = task_id r ∧ prompt_used (f r) = prompt_used r ∧
               (status r ≠ PENDING → status (f r) ≠ PENDING)) ∧
            cs = loop_tasks st) as Hsame.
  { intros res. exists res, 0%nat, id, (loop_tasks st).
    rewrite list_alter_id by done. destruct st. done. }
  destruct (loop_tasks st !! n) as [c|] eqn:Hc.
  2: { destruct (Hsame (Return tt)) as (res & o & f & cs & E & Hf & ->).
       exists res, o, f, (loop_tasks st). rewrite (wake_none _ _ _ Hc), Hc.
       split_and!; try done. }
  destruct c as [tid request|task tid request|].
  3: { destruct (Hsame (Return tt)) as (res & o & f & cs & E & Hf & ->).
       exists res, o, f, (loop_tasks st). rewrite (wake_finished _ _ _ Hc), Hc.
       split_and!; done. }
  - destruct (_mock_tasks st !! tid) as [o|] eqn:Ho.
    2: { rewrite (wake_created_unknown _ _ _ _ _ Hc Ho).
         exists (Return tt), 0%nat, id, (<[n := Finished]> (loop_tasks st)).
         rewrite list_alter_id by done. split; [reflexivity|].
         split; [done|]. rewrite <- Hc. apply (insert_coroutine _ _ _ _ Hc); done. }
    unfold_wake. rewrite Hc, Ho. cbn.
    destruct (out (processing_line tid request)); cbn.
    { eexists _, o, _, _. split; [reflexivity|]. split; [done|].
      rewrite <- Hc. apply (insert_coroutine _ _ _ _ Hc); done. }
    destruct (int_truediv (duration_seconds request) 5) as [[]|e]; cbn.
    { eexists _, o, _, _. split; [reflexivity|]. split; [done|].
      rewrite <- Hc. apply (insert_coroutine _ _ _ _ Hc); [done|].
      intros H. destruct (H tid request). reflexivity. }
    rewrite !list_alter_alter_eq.
    match goal with |- context [out ?t] => destruct (out t) end; cbn;
      (eexists _, o, _, _; split; [reflexivity|]; split; [done|];
       rewrite <- Hc; apply (insert_coroutine _ _ _ _ Hc); done).
  - unfold_wake. rewrite Hc. cbn.
    destruct (py_in (py "fail") (lower (prompt request))); cbn.
    + rewrite !list_alter_alter_eq.
      match goal with |- context [out ?t] => destruct (out t) end; cbn;
        (eexists _, task, _, _; split; [reflexivity|]; split; [done|];
         rewrite <- Hc; apply (insert_coroutine _ _ _ _ Hc); done).
    + rewrite !list_alter_alter_eq.
      match goal with |- context [out ?t] => destruct (out t) end; cbn.
      * rewrite !list_alter_alter_eq.
        match goal with |- context [out ?t] => destruct (out t) end; cbn;
          (eexists _, task, _, _; split; [reflexivity|]; split; [done|];
           rewrite <- Hc; apply (insert_coroutine _ _ _ _ Hc); done).
      * eexists _, task, _, _. split; [reflexivity|]. split; [done|].
        rewrite <- Hc. apply (insert_coroutine _ _ _ _ Hc); done.
Qed.

(** What a turn of a background task leaves alone, in any state. *)
Lemma wake_frame n out st :
  _is_model_loaded (snd (wake n out st)) = _is_model_loaded st ∧
  _mock_tasks (snd (wake n out st)) = _mock_tasks st ∧
  length (objects (snd (wake n out st))) = length (objects st) ∧
  ∃ o f, objects (snd (wake n out st)) = alter f o (objects st) ∧
         ∀ r, task_id (f r) = task_id r ∧ prompt_used (f r) = prompt_used r ∧
              (status r ≠ PENDING → status (f r) ≠ PENDING).
Proof.
  destruct (wake_cases n out st) as (res & o & f & cs & -> & Hf & _).
  cbn. split_and!; try done.
  - apply length_alter.
  - exists o, f. done.
Qed.

Lemma wake_loop_tasks n out m st :
  length (loop_tasks (snd (wake n out st))) = length (loop_tasks st) ∧
  (m ≠ n → loop_tasks (snd (wake n out st)) !! m = loop_tasks st !! m) ∧
  (loop_tasks st !! n = Some Finished →
   loop_tasks (snd (wake n out st)) !! n = Some Finished) ∧
  (∀ tid request,
     loop_tasks (snd (wake n out st)) !! n = Some (Created tid request) →
     False).
Proof.
  destruct (wake_cases n out st)
    as (res & o & f & cs & -> & _ & H1 & H2 & H3 & H4 & _).
  cbn. split_and!; try done. apply H2.
Qed.


(** ** Reading through the dictionary *)

Lemma get_generation_status_found tid o st :
  _mock_tasks st !! tid = Some o →
  get_generation_status tid st = (Return o, st).
Proof.
  intros H. unfold get_generation_status, bind, mock_tasks_get. rewrite H.
  reflexivity.
Qed.

Lemma get_generation_status_unknown tid st :
  _mock_tasks st !! tid = None →
  get_generation_status tid st =
    (Raise (InvalidTaskError
              (py "Task with ID " ++ uuid_str tid ++ py " not found.")), st).
Proof.
  intros H. unfold get_generation_status, bind, mock_tasks_get. rewrite H.
  reflexivity.
Qed.

Lemma snapshot_lookup tid st r :
  snapshot tid st = Some r ↔
  ∃ o, _mock_tasks st !! tid = Some o ∧ objects st !! o = Some r.
Proof.
  unfold snapshot. destruct (_mock_tasks st !! tid) as [o|] eqn:Hk.
  - rewrite (get_generation_status_found _ _ _ Hk). split.
    + intros H. exists o. done.
    + intros (o' & Ho' & Hr). congruence.
  - rewrite (get_generation_status_unknown _ _ Hk). split.
    + discriminate.
    + intros (o' & Ho' & _). discriminate.
Qed.

Lemma snapshot_ext tid st st' :
  _mock_tasks st' !! tid = _mock_tasks st !! tid →
  (∀ o, _mock_tasks st !! tid = Some o → objects st' !! o = objects st !! o) →
  snapshot tid st' = snapshot tid st.
Proof.
  intros Hk Ho. unfold snapshot.
  destruct (_mock_tasks st !! tid) as [o|] eqn:Hk'.
  - rewrite (get_generation_status_found _ _ _ Hk').
    rewrite (get_generation_status_found tid o st') by congruence.
    apply Ho. reflexivity.
  - rewrite (get_generation_status_unknown _ _ Hk').
    rewrite (get_generation_status_unknown tid st') by congruence.
    reflexivity.
Qed.

Lemma runs_snapshot st n tid request :
  runs st n tid request →
  ∃ c r, loop_tasks st !! n = Some c ∧ snapshot tid st = Some r ∧
         tracks n tid request c r.
Proof.
  intros (c & r & Hc & Hr & Hk & Hv & Ht). exists c, r. split_and!; try done.
  apply snapshot_lookup. eauto.
Qed.

(** ** The operations of the core *)

(** C5: while the model is not loaded, [generate_music] raises
    [ModelNotReadyError] and hands back the state it was given: no object
    is made, [_mock_tasks] and every record are as before, and no
    background task is queued. *)
Theorem generate_music_gate_closed u request st :
  _is_model_loaded st = false →
  ∃ msg, generate_music u request st = (Raise (ModelNotReadyError msg), st).
Proof.
  intros H. eexists. apply generate_music_not_ready, H.
Qed.

Lemma generate_music_gate_closed_witness :
  ∃ msg, generate_music 7 calm_piano initial =
           (Raise (ModelNotReadyError msg), initial).
Proof.
  apply (generate_music_gate_closed 7 calm_piano initial). reflexivity.
Defined.

(** C8: [get_generation_status] changes nothing; called twice in a row
    it answers the same both times (the same reference or the same
    exception), and the record read through it is the same. *)
Theorem get_generation_status_pure tid st :
  snd (get_generation_status tid st) = st ∧
  get_generation_status tid (snd (get_generation_status tid st)) =
    get_generation_status tid st ∧
  snapshot tid (snd (get_generation_status tid st)) = snapshot tid st.
Proof.
  assert (snd (get_generation_status tid st) = st) as H.
  { destruct (_mock_tasks st !! tid) as [o|] eqn:Hk.
    - rewrite (get_generation_status_found _ _ _ Hk). reflexivity.
    - rewrite (get_generation_status_unknown _ _ Hk). reflexivity. }
  rewrite H. done.
Qed.

(** ** Issued ids and the dictionary *)

Lemma keyed_initial : keyed initial.
Proof. intros k o H. cbn in H. rewrite lookup_empty in H. discriminate. Qed.

Lemma keyed_step ev st : keyed st → keyed (snd (step ev st)).
Proof.
  intros HK. destruct ev as [|u request|tid|n out].
  - exact HK.
  - rewrite step_generate_music. destruct (_is_model_loaded st) eqn:Hl.
    2: { rewrite (generate_music_not_ready _ _ _ Hl). exact HK. }
    rewrite (generate_music_ready _ _ _ Hl). intros k o. cbn.
    destruct (decide (u = k)) as [->|Hne].
    + rewrite lookup_insert_eq. intros [= <-]. eexists. split.
      * apply list_lookup_middle. reflexivity.
      * done.
    + rewrite lookup_insert_ne by done. intros Hko.
      destruct (HK k o Hko) as (r & Hr & Hid & Hst). exists r.
      split; [|done]. rewrite lookup_app_l; [done|].
      eapply lookup_lt_Some, Hr.
  - rewrite step_get_generation_status. exact HK.
  - rewrite step_wake. cbn [snd].
    destruct (wake_frame n out st) as (_ & Hk & _ & o' & f & Hobj & Hf).
    intros k o. rewrite Hk, Hobj. intros Hko.
    destruct (HK k o Hko) as (r & Hr & Hid & Hst).
    destruct (decide (o' = o)) as [->|Hne].
    + exists (f r). rewrite list_lookup_alter_eq, Hr. cbn.
      destruct (Hf r) as (-> & _ & Hp). auto.
    + exists r. rewrite list_lookup_alter_ne by done. done.
Qed.

Lemma keyed_exec tr st : keyed st → keyed (exec tr st).
Proof.
  revert st. induction tr as [|ev tr IH]; intros st HK; cbn; [done|].
  apply IH, keyed_step, HK.
Qed.

Lemma accepted_cons ev tr st :
  accepted (ev :: tr) st =
    match ev with
    | GenerateMusic u request =>
        if _is_model_loaded st
        then (u, request) :: accepted tr (snd (step ev st))
        else accepted tr (snd (step ev st))
    | _ => accepted tr (snd (step ev st))
    end.
Proof.
  destruct ev as [|u request|tid|n out]; cbn [accepted].
  - destruct (step LoadModel st) as [[[]|] ?]; reflexivity.
  - unfold step, bind. destruct (_is_model_loaded st) eqn:Hl.
    + rewrite (generate_music_ready _ _ _ Hl). cbn. unfold attr. cbn.
      rewrite list_lookup_middle by reflexivity. reflexivity.
    + rewrite (generate_music_not_ready _ _ _ Hl). reflexivity.
  - destruct (step (GetGenerationStatus tid) st) as [[[]|] ?]; reflexivity.
  - destruct (step (Wake n out) st) as [[[]|] ?]; reflexivity.
Qed.

Lemma step_mock_tasks ev st k :
  is_Some (_mock_tasks (snd (step ev st)) !! k) ↔
  is_Some (_mock_tasks st !! k) ∨
  (∃ request, ev = GenerateMusic k request ∧ _is_model_loaded st = true).
Proof.
  destruct ev as [|u request|tid|n out].
  - cbn. split; [auto|]. intros [H|(? & ? & _)]; [done|discriminate].
  - rewrite step_generate_music. destruct (_is_model_loaded st) eqn:Hl.
    + rewrite (generate_music_ready _ _ _ Hl). cbn.
      destruct (decide (u = k)) as [->|Hne].
      * rewrite lookup_insert_eq. split; eauto.
      * rewrite lookup_insert_ne by done. split; [auto|].
        intros [H|(? & ? & _)]; [done|congruence].
    + rewrite (generate_music_not_ready _ _ _ Hl). cbn. split; [auto|].
      intros [H|(? & _ & ?)]; [done|discriminate].
  - rewrite step_get_generation_status. split; [auto|].
    intros [H|(? & ? & _)]; [done|discriminate].
  - rewrite step_wake. cbn [snd].
    destruct (wake_frame n out st) as (_ & -> & _). split; [auto|].
    intros [H|(? & ? & _)]; [done|discriminate].
Qed.

Lemma issued_mock_tasks tr st k :
  is_Some (_mock_tasks (exec tr st) !! k) ↔
  is_Some (_mock_tasks st !! k) ∨ k ∈ issued tr st.
Proof.
  revert st. induction tr as [|ev tr IH]; intros st.
  - cbn. unfold issued. cbn. rewrite elem_of_nil. tauto.
  - cbn [exec]. rewrite IH, step_mock_tasks. unfold issued.
    rewrite accepted_cons.
    destruct ev as [|u request|tid|n out].
    2: destruct (_is_model_loaded st) eqn:Hl.
    2: { cbn [map fst]. rewrite elem_of_cons. split.
         - intros [[?|(? & [= -> _] & _)]|?]; auto.
         - intros [?|[->|?]]; eauto. }
    all: split;
      [ intros [[?|(? & ? & ?)]|?]; [auto | discriminate | auto]
      | intros [?|?]; auto ].
Qed.


(** ** Traces *)

Lemma exec_app tr1 tr2 st : exec (tr1 ++ tr2) st = exec tr2 (exec tr1 st).
Proof.
  revert st. induction tr1 as [|ev tr1 IH]; intros st; cbn; [done|]. apply IH.
Qed.

Lemma admissible_run_app tr1 tr2 st :
  admissible_run (tr1 ++ tr2) st = true ↔
  admissible_run tr1 st = true ∧ admissible_run tr2 (exec tr1 st) = true.
Proof.
  revert st. induction tr1 as [|ev tr1 IH]; intros st; cbn.
  - tauto.
  - rewrite !andb_true_iff, IH. tauto.
Qed.

(** ** Draws and the dictionary *)












(** ** Runs in which every line can be printed *)







(** C2 fails on the code when a line cannot be printed.  A valid
    request whose prompt has a character outside ASCII, on a standard
    output with the ASCII encoding: the line printed before the [try]
    (line 90) raises [UnicodeEncodeError], the exception leaves the
    coroutine, and the task is over with its record PROCESSING, where
    further turns and reads leave it; the prompt does not contain
    ["fail"], so the claim promises COMPLETED. *)
Theorem print_failure_leaves_processing :
  let submitted := exec [LoadModel; GenerateMusic 7 cafe_del_mar] initial in
  let st := exec [Wake 0%nat ascii_stdout] submitted in
  valid_request cafe_del_mar = true ∧
  fail_trigger cafe_del_mar = false ∧
  admissible_run [LoadModel; GenerateMusic 7 cafe_del_mar;
                  Wake 0%nat ascii_stdout] initial = true ∧
  fst (wake 0 ascii_stdout submitted) =
    Raise (UnicodeEncodeError (py "'ascii' codec can't encode character")) ∧
  loop_tasks st !! 0%nat = Some Finished ∧
  snapshot 7 st =
    Some (MusicGenerationResult_new 7 (prompt cafe_del_mar) PROCESSING) ∧
  snapshot 7 (exec [Wake 0%nat quiet; GetGenerationStatus 7;
                    Wake 0%nat quiet] st) =
    Some (MusicGenerationResult_new 7 (prompt cafe_del_mar) PROCESSING).
Proof. split_and!; vm_compute; reflexivity. Qed.

(** The two scenarios of the specification, run with every line
    printed. *)
Example calm_piano_completes :
  snapshot 7 (exec [LoadModel; GenerateMusic 7 calm_piano;
                    Wake 0%nat quiet; Wake 0%nat quiet] initial) =
  Some {| task_id := 7; status := COMPLETED;
          audio_url :=
            Some (py "http://localhost:8000/static/audio/00000000-0000-0000-0000-000000000007.mp3");
          error_message := None;
          prompt_used := py "A calm piano piece";
          duration_seconds_generated := Some 30%Z |}.
Proof. reflexivity. Qed.

Example please_fail_fails :
  snapshot 9 (exec [LoadModel; GenerateMusic 9 please_fail;
                    Wake 0%nat quiet; Wake 0%nat quiet] initial) =
  Some {| task_id := 9; status := FAILED; audio_url := None;
          error_message :=
            Some (py "Generation failed: Simulated failure due to keyword 'fail'.");
          prompt_used := py "please fail this generation";
          duration_seconds_generated := None |}.
Proof. reflexivity. Qed.

(** The trigger looks at the lowered prompt, so capitals set it off too. *)
Example fail_trigger_capitals :
  fail_trigger (sample_request "No FAILure here" 10) = true ∧
  fail_trigger (sample_request "fa il" 10) = false.
Proof. split; reflexivity. Qed.

(** ** The locator names the task *)

Lemma hex_length k n : length (hex k n) = k.
Proof.
  revert n. induction k as [|k IH]; intros n; cbn; [done|].
  rewrite length_app, IH. cbn. lia.
Qed.

Lemma hex_digit_inj a b :
  a < 16 → b < 16 → hex_digit a = hex_digit b → a = b.
Proof.
  unfold hex_digit. intros Ha Hb.
  destruct (N.ltb_spec a 10), (N.ltb_spec b 10); lia.
Qed.

Lemma hex_inj k n m : hex k n = hex k m → n mod 16 ^ N.of_nat k = m mod 16 ^ N.of_nat k.
Proof.
  revert n m. induction k as [|k IH]; intros n m H.
  - cbn. rewrite !N.mod_1_r. reflexivity.
  - cbn [hex] in H. apply app_inj_tail in H as [H1 H2].
    apply hex_digit_inj in H2.
    2,3: apply N.mod_lt; lia.
    apply IH in H1.
    rewrite Nat2N.inj_succ, N.pow_succ_r'.
    rewrite !N.Div0.mod_mul_r. congruence.
Qed.

Lemma uuid_str_inj u v :
  u < 2 ^ 128 → v < 2 ^ 128 → uuid_str u = uuid_str v → u = v.
Proof.
  intros Hu Hv H. unfold uuid_str in H. cbn zeta in H.
  pose proof (hex_length 32 u) as Lu. pose proof (hex_length 32 v) as Lv.
  assert (hex 32 u = hex 32 v) as Hh.
  { rewrite <- (take_drop 8 (hex 32 u)), <- (take_drop 8 (hex 32 v)).
    rewrite <- (take_drop 4 (drop 8 (hex 32 u))),
            <- (take_drop 4 (drop 8 (hex 32 v))).
    rewrite <- (take_drop 4 (drop 4 (drop 8 (hex 32 u)))),
            <- (take_drop 4 (drop 4 (drop 8 (hex 32 v)))).
    rewrite <- (take_drop 4 (drop 4 (drop 4 (drop 8 (hex 32 u))))),
            <- (take_drop 4 (drop 4 (drop 4 (drop 8 (hex 32 v))))).
    rewrite !drop_drop. cbn [Nat.add].
    apply app_inj_1 in H as [-> H]; [|rewrite !length_take; lia].
    apply app_inj_1 in H as [_ H]; [|reflexivity].
    apply app_inj_1 in H as [-> H];
      [|rewrite !length_take, !length_drop; lia].
    apply app_inj_1 in H as [_ H]; [|reflexivity].
    apply app_inj_1 in H as [-> H];
      [|rewrite !length_take, !length_drop; lia].
    apply app_inj_1 in H as [_ H]; [|reflexivity].
    apply app_inj_1 in H as [-> H];
      [|rewrite !length_take, !length_drop; lia].
    apply app_inj_1 in H as [_ ->]; [|reflexivity].
    reflexivity. }
  apply hex_inj in Hh.
  change (16 ^ N.of_nat 32) with (2 ^ 128) in Hh.
  rewrite !N.mod_small in Hh by assumption. exact Hh.
Qed.

(** Tasks with different ids get different locators. *)
Lemma audio_url_of_inj u v :
  u < 2 ^ 128 → v < 2 ^ 128 → audio_url_of u = audio_url_of v → u = v.
Proof.
  intros Hu Hv H. unfold audio_url_of in H.
  apply app_inv_head in H. apply app_inv_tail in H.
  apply uuid_str_inj; assumption.
Qed.


(** ** Status transitions *)

Lemma step_snapshot ev tid r st :
  Inv st → admissible ev st = true →
  snapshot tid st = Some r →
  ∃ r', snapshot tid (snd (step ev st)) = Some r' ∧
        transition (status r) (status r').
Proof.
  intros HI Hf Hs. destruct ev as [|u request|tid'|n out].
  - exists r. split; [|left; done].
    rewrite (snapshot_ext tid st); [exact Hs | done | done].
  - exists r. split; [|left; done]. rewrite step_generate_music.
    destruct (admissible_generate_music _ _ _ Hf) as [Hv [Hl|Hu]].
    + rewrite (generate_music_not_ready _ _ _ Hl). exact Hs.
    + destruct (_is_model_loaded st) eqn:Hl.
      2: { rewrite (generate_music_not_ready _ _ _ Hl). exact Hs. }
      rewrite (generate_music_ready _ _ _ Hl). cbn.
      apply snapshot_lookup in Hs as (o & Hk & Hr).
      apply snapshot_lookup. exists o. cbn. split.
      * rewrite lookup_insert_ne; [done|]. congruence.
      * rewrite lookup_app_l; [done|]. eapply lookup_lt_Some, Hr.
  - exists r. split; [|left; done].
    rewrite step_get_generation_status. exact Hs.
  - rewrite step_wake. destruct (wake_effect st n out HI) as [->|H].
    { exists r. split; [exact Hs | left; done]. }
    destruct H as (tid0 & request & c & r0 & c' & r' & res & Hc & Hr0 & Hk0
                   & _ & Ht & Ht' & Htr & ->).
    cbn [snd]. apply snapshot_lookup in Hs as (o & Hk & Hr).
    destruct (decide (o = n)) as [->|Hne].
    + exists r'. split.
      * apply snapshot_lookup. exists n. cbn. split; [done|].
        apply list_lookup_insert_eq. eapply lookup_lt_Some, Hr.
      * congruence.
    + exists r. split; [|left; done].
      apply snapshot_lookup. exists o. cbn. split; [done|].
      rewrite list_lookup_insert_ne by done. exact Hr.
Qed.

(** C3: along any admissible run, one step of the system (a
    submission, a turn of a background task, a status read, the end of
    model loading) leaves the record read for an id in place and moves
    its status only along QUEUED → PROCESSING → {COMPLETED | FAILED}: it
    stays, or goes from QUEUED to PROCESSING, or from PROCESSING to
    COMPLETED or FAILED; a COMPLETED or FAILED status stays as it is. *)
Theorem status_monotonic tr ev tid r :
  admissible_run (tr ++ [ev]) initial = true →
  snapshot tid (exec tr initial) = Some r →
  ∃ r', snapshot tid (snd (step ev (exec tr initial))) = Some r' ∧
        transition (status r) (status r') ∧
        (terminal (status r) → status r' = status r).
Proof.
  intros Hf Hs. apply admissible_run_app in Hf as [Hf1 Hf2].
  cbn in Hf2. apply andb_true_iff in Hf2 as [Hf2 _].
  pose proof (Inv_exec _ _ Inv_initial Hf1) as HI.
  destruct (step_snapshot _ _ _ _ HI Hf2 Hs) as (r' & Hs' & Htr).
  exists r'. split_and!; try done.
  intros [Hterm|Hterm]; destruct Htr as [?|[[? ?]|[? ?]]]; congruence.
Qed.

Lemma status_monotonic_witness :
  ∃ r', snapshot 7 (snd (step (Wake 0 quiet)
                      (exec [LoadModel; GenerateMusic 7 calm_piano] initial))) =
          Some r' ∧
        transition QUEUED (status r') ∧
        (terminal QUEUED → status r' = QUEUED).
Proof.
  apply (status_monotonic [LoadModel; GenerateMusic 7 calm_piano]
           (Wake 0 quiet) 7
           (MusicGenerationResult_new 7 (prompt calm_piano) QUEUED));
    reflexivity.
Defined.

(** Terminal statuses are for good: over any admissible continuation of
    the run the status read for the id is the same. *)
Lemma terminal_forever tr tid r st :
  Inv st → admissible_run tr st = true →
  snapshot tid st = Some r → terminal (status r) →
  ∃ r', snapshot tid (exec tr st) = Some r' ∧ status r' = status r.
Proof.
  revert st r. induction tr as [|ev tr IH]; intros st r HI Hf Hs Hterm; cbn in *.
  - exists r. done.
  - apply andb_true_iff in Hf as [Hf1 Hf2].
    destruct (step_snapshot _ _ _ _ HI Hf1 Hs) as (r1 & Hs1 & Htr).
    assert (status r1 = status r) as Heq.
    { destruct Hterm, Htr as [?|[[? ?]|[? ?]]]; congruence. }
    destruct (IH _ r1 (Inv_step _ _ HI Hf1) Hf2 Hs1) as (r' & Hs' & Hst).
    { rewrite Heq. exact Hterm. }
    exists r'. split; [exact Hs' | congruence].
Qed.

(** Why the draws must be fresh: were [uuid4] to return an id already in
    use, the new record would replace the finished one under that id. *)
Example reused_id_replaces_record :
  admissible_run [LoadModel; GenerateMusic 7 calm_piano;
                  Wake 0%nat quiet; Wake 0%nat quiet;
                  GenerateMusic 7 calm_piano] initial = false ∧
  (status <$> snapshot 7 (exec [LoadModel; GenerateMusic 7 calm_piano;
                                Wake 0%nat quiet; Wake 0%nat quiet]
                            initial)) =
    Some COMPLETED ∧
  (status <$> snapshot 7 (exec [LoadModel; GenerateMusic 7 calm_piano;
                                Wake 0%nat quiet; Wake 0%nat quiet;
                                GenerateMusic 7 calm_piano] initial)) =
    Some QUEUED.
Proof. split_and!; reflexivity. Qed.


(** ** Populated fields *)



(** C4 fails on the code when the line printed on success (line 104)
    cannot be written.  The line comes after the three assignments of
    the [try] block, so the [except] clause finds the audio URL and the
    duration already set, which it does not clear: with a standard
    output closed during the sleep, the record of a valid request that
    does not contain ["fail"] ends FAILED with [error_message],
    [audio_url] and [duration_seconds_generated] all populated. *)
Theorem print_failure_leaves_audio_on_failed :
  let tr := [LoadModel; GenerateMusic 7 calm_piano;
             Wake 0%nat quiet; Wake 0%nat closed_stdout] in
  valid_request calm_piano = true ∧
  admissible_run tr initial = true ∧
  snapshot 7 (exec tr initial) =
    Some {| task_id := 7; status := FAILED;
            audio_url :=
              Some (py "http://localhost:8000/static/audio/00000000-0000-0000-0000-000000000007.mp3");
            error_message :=
              Some (py "Generation failed: I/O operation on closed file.");
            prompt_used := py "A calm piano piece";
            duration_seconds_generated := Some 30%Z |} ∧
  (∀ r, snapshot 7 (exec tr initial) = Some r → ¬ populated_by_status r).
Proof.
  split_and!; [reflexivity | reflexivity | reflexivity |].
  intros r Hr. vm_compute in Hr. injection Hr as <-.
  unfold populated_by_status. cbn. intros (_ & H & _). discriminate.
Qed.

(** C6: after any run of events from the start of the process,
    [get_generation_status tid] raises [InvalidTaskError] exactly when no
    call of [generate_music] has returned [tid]; and when some call has,
    it returns the stored object, whose [task_id] is [tid] and whose
    status is QUEUED or later, never the PENDING default. *)
Theorem get_generation_status_issued tr tid :
  ((∃ msg, fst (get_generation_status tid (exec tr initial)) =
             Raise (InvalidTaskError msg)) ↔
   tid ∉ issued tr initial) ∧
  (tid ∈ issued tr initial →
   ∃ o r, fst (get_generation_status tid (exec tr initial)) = Return o ∧
          objects (exec tr initial) !! o = Some r ∧
          task_id r = tid ∧
          (status r = QUEUED ∨ status r = PROCESSING ∨
           status r = COMPLETED ∨ status r = FAILED)).
Proof.
  assert (is_Some (_mock_tasks (exec tr initial) !! tid) ↔
          tid ∈ issued tr initial) as Hdom.
  { rewrite issued_mock_tasks. cbn [initial _mock_tasks].
    rewrite lookup_empty.
    split; [intros [[? ?]|?]; [discriminate | done] | auto]. }
  split.
  - destruct (_mock_tasks (exec tr initial) !! tid) as [o|] eqn:Hk.
    + rewrite (get_generation_status_found _ _ _ Hk). cbn. split.
      * intros (msg & Hm). discriminate.
      * intros Hn. exfalso. apply Hn, Hdom. eauto.
    + rewrite (get_generation_status_unknown _ _ Hk). cbn. split.
      * intros _ Hin. apply Hdom in Hin as [? ?]. discriminate.
      * intros _. eexists. reflexivity.
  - intros Hin. apply Hdom in Hin as [o Hk].
    destruct (keyed_exec tr initial keyed_initial tid o Hk)
      as (r & Hr & Hid & Hst).
    exists o, r. rewrite (get_generation_status_found _ _ _ Hk).
    split_and!; try done. destruct (status r); auto. done.
Qed.

Lemma get_generation_status_issued_witness :
  ∃ o r, fst (get_generation_status 7
                (exec [LoadModel; GenerateMusic 7 calm_piano; Wake 0%nat quiet]
                   initial)) = Return o ∧
         objects (exec [LoadModel; GenerateMusic 7 calm_piano; Wake 0%nat quiet]
                    initial) !! o = Some r ∧
         task_id r = 7 ∧
         (status r = QUEUED ∨ status r = PROCESSING ∨
          status r = COMPLETED ∨ status r = FAILED).
Proof.
  apply (get_generation_status_issued
           [LoadModel; GenerateMusic 7 calm_piano; Wake 0%nat quiet] 7).
  apply list_elem_of_here.
Defined.

(** ** Failure containment *)

Lemma generate_music_raises u request e st :
  fst (generate_music u request st) = Raise e →
  is_ModelNotReadyError e = true ∧ _is_model_loaded st = false.
Proof.
  destruct (_is_model_loaded st) eqn:Hl.
  - rewrite (generate_music_ready _ _ _ Hl). discriminate.
  - rewrite (generate_music_not_ready _ _ _ Hl). intros [= <-]. done.
Qed.

Lemma get_generation_status_raises tid e st :
  fst (get_generation_status tid st) = Raise e →
  is_InvalidTaskError e = true ∧ _mock_tasks st !! tid = None.
Proof.
  destruct (_mock_tasks st !! tid) as [o|] eqn:Hk.
  - rewrite (get_generation_status_found _ _ _ Hk). discriminate.
  - rewrite (get_generation_status_unknown _ _ Hk). intros [= <-]. done.
Qed.

(** Which exceptions the [try] block raises after the sleep: the
    simulated one, or the one of the line printed on success. *)
Lemma _simulate_generation_try_raises out task tid request r e st :
  objects st !! task = Some r →
  fst (_simulate_generation_try out task tid request st) = Raise e →
  (fail_trigger request = true ∧
   e = ValueError (py "Simulated failure due to keyword 'fail'.")) ∨
  (fail_trigger request = false ∧
   out (completed_line tid (Some (audio_url_of tid))) = Some e).
Proof.
  intros Hr. unfold _simulate_generation_try, _simulate_success_or_failure,
    fail_trigger, bind, getattr, attr, setattr, print, raise, ret.
  destruct (py_in (py "fail") (lower (prompt request))); cbn.
  - intros [= <-]. auto.
  - rewrite !list_lookup_alter_eq, Hr. cbn.
    destruct (out (completed_line tid (Some (audio_url_of tid)))) as [e'|];
      cbn; [intros [= <-]; auto | discriminate].
Qed.

(** X19: along any admissible run, an exception raised inside the
    [try] block after the sleep, the simulated one or one of the line
    printed on success, is recorded.  The task is over, the record of
    its id is FAILED with ["Generation failed: "] and [str(e)] in
    [error_message]; the readiness flag, the dictionary, the records of
    all other ids and all other tasks are as before; and the two
    operations of the core raise nothing but their own errors. *)
Theorem try_errors_recorded tr n out task tid request e :
  admissible_run tr initial = true →
  loop_tasks (exec tr initial) !! n = Some (Sleeping task tid request) →
  fst (_simulate_generation_try out task tid request (exec tr initial)) =
    Raise e →
  let st := exec tr initial in
  let st' := snd (wake n out st) in
  loop_tasks st' !! n = Some Finished ∧
  (∃ r, snapshot tid st' = Some r ∧ status r = FAILED ∧
        error_message r = Some (py "Generation failed: " ++ exn_str e)) ∧
  _is_model_loaded st' = _is_model_loaded st ∧
  _mock_tasks st' = _mock_tasks st ∧
  (∀ tid', tid' ≠ tid → snapshot tid' st' = snapshot tid' st) ∧
  (∀ m, m ≠ n → loop_tasks st' !! m = loop_tasks st !! m) ∧
  (∀ u request' e', fst (generate_music u request' st') = Raise e' →
     is_ModelNotReadyError e' = true ∧ _is_model_loaded st' = false) ∧
  (∀ tid' e', fst (get_generation_status tid' st') = Raise e' →
     is_InvalidTaskError e' = true ∧ _mock_tasks st' !! tid' = None).
Proof.
  intros Hf Hc Hraise st st'.
  pose proof (Inv_exec _ _ Inv_initial Hf) as HI. fold st in HI, Hc, Hraise.
  assert (n < length (objects st))%nat as Hlt.
  { rewrite <- (inv_len _ HI). eapply lookup_lt_Some, Hc. }
  destruct (inv_runs _ HI n Hlt)
    as (tid0 & request0 & c & r & Hc0 & Hr & Hk & _ & Ht).
  rewrite Hc in Hc0. injection Hc0 as <-.
  inversion Ht. subst task tid0 request0 r.
  assert (∃ res r',
            wake n out st = (res, moved n Finished r' st) ∧
            status r' = FAILED ∧
            error_message r' = Some (py "Generation failed: " ++ exn_str e))
    as (res & r' & Hw & Hs & He).
  { destruct (_simulate_generation_try_raises _ _ _ _ _ _ _ Hr Hraise)
      as [[Htrig ->]|[Htrig Hout]].
    - eexists _, (outcome tid request).
      rewrite (wake_sleeping_fail _ _ _ _ _ _ _ Hc Hr Htrig).
      rewrite (alter_lookup _ _ _ _ Hr). split; [reflexivity|].
      unfold outcome, finish_update. rewrite Htrig. done.
    - eexists _, (spoiled tid request e).
      rewrite (wake_sleeping_spoiled _ _ _ _ _ _ _ _ Hc Hr Htrig Hout).
      rewrite (alter_lookup _ _ _ _ Hr). split; [reflexivity|]. done. }
  assert (st' = moved n Finished r' st) as Hst'.
  { unfold st'. rewrite Hw. reflexivity. }
  split_and!; try (rewrite Hst'; cbn; done).
  - rewrite Hst'. cbn. apply list_lookup_insert_eq. eapply lookup_lt_Some, Hc.
  - exists r'. split; [|done].
    rewrite Hst'. apply snapshot_lookup. exists n. cbn. split; [done|].
    apply list_lookup_insert_eq, Hlt.
  - intros tid' Hne. rewrite Hst'. apply snapshot_ext; [done|].
    cbn. intros o Hko. apply list_lookup_insert_ne. intros ->.
    pose proof (inv_keys _ HI _ _ Hko) as H1.
    pose proof (inv_keys _ HI _ _ Hk) as H2. congruence.
  - intros m Hne. rewrite Hst'. cbn. apply list_lookup_insert_ne. done.
  - intros u request' e'. apply generate_music_raises.
  - intros tid' e'. apply get_generation_status_raises.
Qed.

(** C7 fails on the code for an error of the line printed before the
    [try] (line 90).  A valid request whose prompt has a character
    outside ASCII, on a standard output with the ASCII encoding: the
    [UnicodeEncodeError] leaves the coroutine, which is over, and is
    recorded nowhere: the record is PROCESSING with no [error_message].
    The exception reaches no caller: the readiness flag and the
    dictionary are as before and a status read still returns the
    record. *)
Theorem print_error_not_recorded :
  let st := exec [LoadModel; GenerateMusic 7 cafe_del_mar] initial in
  let st' := snd (wake 0 ascii_stdout st) in
  valid_request cafe_del_mar = true ∧
  fst (wake 0 ascii_stdout st) =
    Raise (UnicodeEncodeError (py "'ascii' codec can't encode character")) ∧
  loop_tasks st' !! 0%nat = Some Finished ∧
  (status <$> snapshot 7 st') = Some PROCESSING ∧
  (error_message <$> snapshot 7 st') = Some None ∧
  _is_model_loaded st' = _is_model_loaded st ∧
  _mock_tasks st' = _mock_tasks st ∧
  fst (get_generation_status 7 st') = Return 0%nat.
Proof. split_and!; vm_compute; reflexivity. Qed.

(** An error in the first turn that the [try] does cover is recorded.
    A request whose duration is too large for the delay to be a float
    cannot come out of the constructor; were one handed over all the
    same, the [OverflowError] would be recorded in the turn that started
    the task. *)
Example overflow_recorded :
  valid_request (sample_request "A calm piano piece" (2 ^ 1027)) = false ∧
  snapshot 7 (exec [LoadModel;
                    GenerateMusic 7
                      (sample_request "A calm piano piece" (2 ^ 1027));
                    Wake 0%nat quiet] initial) =
  Some {| task_id := 7; status := FAILED; audio_url := None;
          error_message :=
            Some (py "Generation failed: integer division result too large for a float");
          prompt_used := py "A calm piano piece";
          duration_seconds_generated := None |}.
Proof. split; vm_compute; reflexivity. Qed.

(** ** Many submissions *)





Example hundred_submissions_issued :
  issued hundred_submissions initial = map N.of_nat (seq 0 100).
Proof. vm_compute. reflexivity. Qed.

(** ** Request validation at the two layers *)

(** C10: the constructor of the core's [MusicGenerationRequest] accepts
    exactly the requests with a prompt of 5 to 30 characters, a duration
    of 5 to 180 seconds and a tempo that is absent or between 40 and
    200.  The HTTP schema lets prompts of up to 500 characters through,
    so some request it accepts is refused by that constructor; and for
    every request the schema accepts with a prompt of more than 30
    characters the [/generate] handler answers 500 from the validation
    error and leaves the state as it was: [generate_music] is not
    reached. *)
Theorem core_request_validation :
  (∀ p d g t,
     (∃ r, MusicGenerationRequest_new p d g t = Return r) ↔
     (5 ≤ length p ≤ 30)%nat ∧ (5 ≤ d ≤ 180)%Z ∧
     (∀ v, t = Some v → (40 ≤ v ≤ 200)%Z)) ∧
  (∃ p d g t,
     (∃ r, GenerateMusicRequest_new p d g t = Return r) ∧
     (∃ loc, MusicGenerationRequest_new p d g t =
               Raise (ValidationError loc))) ∧
  (∀ u request st,
     GenerateMusicRequest_new (api_prompt request)
       (api_duration_seconds request) (api_genre request)
       (api_tempo request) = Return request →
     (30 < length (api_prompt request))%nat →
     ∃ loc, endpoint_generate_music u request st =
              (HTTPException 500 (ValidationError loc), st)).
Proof.
  split_and!.
  - intros p d g t. unfold MusicGenerationRequest_new. split.
    + intros (r & Hr). apply validated_Return in Hr as [Hr _].
      cbn in Hr. unfold len_between, int_between in Hr.
      rewrite ?andb_true_iff, ?Nat.leb_le, ?Z.leb_le in Hr.
      destruct Hr as ([? ?] & [? ?] & Ht & _). split_and!; try lia.
      intros v ->. cbn in Ht. unfold int_between in Ht.
      rewrite ?andb_true_iff, ?Z.leb_le in Ht. lia.
    + intros (Hp & Hd & Ht). eexists. apply validated_Return.
      split; [|reflexivity]. cbn. unfold len_between, int_between.
      rewrite ?andb_true_iff, ?Nat.leb_le, ?Z.leb_le.
      split_and!; try lia; try done.
      destruct t as [v|]; [|done]. specialize (Ht v eq_refl).
      cbn. unfold int_between. rewrite ?andb_true_iff, ?Z.leb_le. lia.
  - exists (api_prompt long_prompt_request), 30%Z, None, (Some 90%Z).
    split; eexists; reflexivity.
  - intros u request st Hapi Hlen.
    unfold endpoint_generate_music, bind, lift.
    destruct (MusicGenerationRequest_new (api_prompt request)
                (api_duration_seconds request) (api_genre request)
                (api_tempo request)) as [r|e] eqn:Hcore.
    + exfalso. unfold MusicGenerationRequest_new in Hcore.
      apply validated_Return in Hcore as [Hcore _]. cbn in Hcore.
      unfold len_between in Hcore.
      rewrite ?andb_true_iff, ?Nat.leb_le in Hcore. lia.
    + apply validated_Raise in Hcore as (_ & loc & ->). exists loc.
      reflexivity.
Qed.

Lemma core_request_validation_witness :
  (∃ r, MusicGenerationRequest_new (py "A calm piano piece") 30 None
          (Some 90%Z) = Return r) ∧
  (∃ loc, endpoint_generate_music 7 long_prompt_request ready =
            (HTTPException 500 (ValidationError loc), ready)).
Proof.
  destruct core_request_validation as (Hcore & _ & Hend). split.
  - apply Hcore. split; [vm_compute; lia | split; [lia | intros v [= <-]; lia]].
  - apply (Hend 7 long_prompt_request ready); [reflexivity | vm_compute; lia].
Defined.


(** * Further properties of the handlers and the service *)

(** ** The [/generate] handler *)

Lemma endpoint_generate_music_invalid u request e st :
  MusicGenerationRequest_new (api_prompt request)
    (api_duration_seconds request) (api_genre request) (api_tempo request) =
    Raise e →
  endpoint_generate_music u request st = (HTTPException 500 e, st).
Proof.
  intros H. unfold endpoint_generate_music, bind, lift. rewrite H.
  apply validated_Raise in H as (_ & loc & ->). reflexivity.
Qed.

Lemma endpoint_generate_music_not_ready u request r st :
  MusicGenerationRequest_new (api_prompt request)
    (api_duration_seconds request) (api_genre request) (api_tempo request) =
    Return r →
  _is_model_loaded st = false →
  endpoint_generate_music u request st =
    (HTTPException 503
       (ModelNotReadyError
          (py "AI model is not loaded or ready. Please try again later.")),
     st).
Proof.
  intros H Hl. unfold endpoint_generate_music, bind, lift. rewrite H.
  rewrite (generate_music_not_ready _ _ _ Hl). reflexivity.
Qed.

Lemma endpoint_generate_music_ready u request r st :
  MusicGenerationRequest_new (api_prompt request)
    (api_duration_seconds request) (api_genre request) (api_tempo request) =
    Return r →
  _is_model_loaded st = true →
  endpoint_generate_music u request st =
    (Ok {| resp_task_id := u; resp_status := QUEUED;
           resp_message :=
             py "Music generation task initiated successfully. Check status using GET /status/{task_id}" |},
     snd (generate_music u r st)).
Proof.
  intros H Hl. unfold endpoint_generate_music, bind, lift. rewrite H.
  rewrite (generate_music_ready _ _ _ Hl).
  unfold getattr_task_id, getattr_status, attr, ret. cbn [objects snd].
  rewrite list_lookup_middle by reflexivity. reflexivity.
Qed.

Lemma MusicGenerationRequest_new_fields p d g t r :
  MusicGenerationRequest_new p d g t = Return r →
  r = {| prompt := p; duration_seconds := d; genre := g; tempo := t |}.
Proof.
  unfold MusicGenerationRequest_new. intros H.
  apply validated_Return in H as [_ H]. exact H.
Qed.

(** X1: the [/generate] handler answers in exactly one of three ways.
    It answers with a response exactly when the core's constructor
    accepts the fields and the model is loaded, 503 exactly when the
    constructor accepts them and the model is not loaded, and 500
    exactly when the constructor refuses them; no other status code
    comes out, and an error answer leaves the state as it was. *)
Theorem endpoint_generate_music_answers u request st :
  let core :=
    MusicGenerationRequest_new (api_prompt request)
      (api_duration_seconds request) (api_genre request)
      (api_tempo request) in
  let answer := fst (endpoint_generate_music u request st) in
  ((∃ response, answer = Ok response) ↔
   (∃ r, core = Return r) ∧ _is_model_loaded st = true) ∧
  ((∃ e, answer = HTTPException 503 e) ↔
   (∃ r, core = Return r) ∧ _is_model_loaded st = false) ∧
  ((∃ e, answer = HTTPException 500 e) ↔ (∃ e, core = Raise e)) ∧
  (∀ code e, answer = HTTPException code e →
     (code = 503 ∨ code = 500)%Z ∧
     snd (endpoint_generate_music u request st) = st).
Proof.
  intros core answer. unfold answer.
  destruct core as [r|e] eqn:Hcore; unfold core in Hcore.
  - destruct (_is_model_loaded st) eqn:Hl.
    + rewrite (endpoint_generate_music_ready _ _ _ _ Hcore Hl). cbn [fst].
      split_and!.
      * split; eauto.
      * split; [intros [? ?]; discriminate | intros [_ ?]; discriminate].
      * split; [intros [? ?]; discriminate | intros [? ?]; discriminate].
      * intros code e ?. discriminate.
    + rewrite (endpoint_generate_music_not_ready _ _ _ _ Hcore Hl).
      cbn [fst snd]. split_and!.
      * split; [intros [? ?]; discriminate | intros [_ ?]; discriminate].
      * split; eauto.
      * split; [intros [? [=]] | intros [? ?]; discriminate].
      * intros code e [= <- _]. auto.
  - rewrite (endpoint_generate_music_invalid _ _ _ _ Hcore). cbn [fst snd].
    split_and!.
    + split; [intros [? ?]; discriminate | intros [[? ?] _]; discriminate].
    + split; [intros [? [=]] | intros [[? ?] _]; discriminate].
    + split; eauto.
    + intros code e' [= <- _]. auto.
Qed.

(** X2: when the core's constructor accepts the fields and the model is
    loaded, the handler's response carries the id drawn for the task,
    status QUEUED and the fixed message, and the state is the one
    [generate_music] leaves for the request built from those fields. *)
Theorem endpoint_generate_music_accepted u request st :
  (∃ r, MusicGenerationRequest_new (api_prompt request)
          (api_duration_seconds request) (api_genre request)
          (api_tempo request) = Return r) →
  _is_model_loaded st = true →
  endpoint_generate_music u request st =
    (Ok {| resp_task_id := u; resp_status := QUEUED;
           resp_message :=
             py "Music generation task initiated successfully. Check status using GET /status/{task_id}" |},
     snd (generate_music u
            {| prompt := api_prompt request;
               duration_seconds := api_duration_seconds request;
               genre := api_genre request; tempo := api_tempo request |}
            st)).
Proof.
  intros [r Hr] Hl.
  rewrite (endpoint_generate_music_ready _ _ _ _ Hr Hl).
  rewrite (MusicGenerationRequest_new_fields _ _ _ _ _ Hr). reflexivity.
Qed.

Lemma endpoint_generate_music_accepted_witness :
  endpoint_generate_music 7 short_prompt_request ready =
    (Ok {| resp_task_id := 7; resp_status := QUEUED;
           resp_message :=
             py "Music generation task initiated successfully. Check status using GET /status/{task_id}" |},
     snd (generate_music 7 calm_piano ready)).
Proof.
  apply (endpoint_generate_music_accepted 7 short_prompt_request ready).
  - eexists. reflexivity.
  - reflexivity.
Defined.

(** ** The two layers of validation *)

(** X3: the HTTP schema accepts exactly the requests with a prompt of 10
    to 500 characters, a duration of 10 to 180 seconds and a tempo that
    is absent or between 40 and 200, and hands back the fields as they
    came. *)
Theorem GenerateMusicRequest_new_accepts p d g t :
  (∃ request, GenerateMusicRequest_new p d g t = Return request) ↔
  (10 ≤ length p ≤ 500)%nat ∧ (10 ≤ d ≤ 180)%Z ∧
  (∀ v, t = Some v → (40 ≤ v ≤ 200)%Z).
Proof.
  unfold GenerateMusicRequest_new. split.
  - intros (r & Hr). apply validated_Return in Hr as [Hr _].
    cbn in Hr. unfold len_between, int_between in Hr.
    rewrite ?andb_true_iff, ?Nat.leb_le, ?Z.leb_le in Hr.
    destruct Hr as ([? ?] & [? ?] & Ht & _). split_and!; try lia.
    intros v ->. cbn in Ht. unfold int_between in Ht.
    rewrite ?andb_true_iff, ?Z.leb_le in Ht. lia.
  - intros (Hp & Hd & Ht). eexists. apply validated_Return.
    split; [|reflexivity]. cbn. unfold len_between, int_between.
    rewrite ?andb_true_iff, ?Nat.leb_le, ?Z.leb_le.
    split_and!; try lia; try done.
    destruct t as [v|]; [|done]. specialize (Ht v eq_refl).
    cbn. unfold int_between. rewrite ?andb_true_iff, ?Z.leb_le. lia.
Qed.

Lemma GenerateMusicRequest_new_accepts_witness :
  ∃ request,
    GenerateMusicRequest_new (py "A calm piano piece") 30 None (Some 90%Z) =
      Return request.
Proof.
  apply (GenerateMusicRequest_new_accepts
           (py "A calm piano piece") 30 None (Some 90%Z)).
  split; [vm_compute; lia | split; [lia | intros v [= <-]; lia]].
Defined.

(** X4: for a request the HTTP schema accepted, the prompt length is the
    only thing the core's constructor can still refuse: the handler
    answers 500 exactly when the prompt is longer than 30 characters;
    otherwise it answers 503 while the model is not loaded and with a
    response once it is. *)
Theorem schema_accepted_answers u request st :
  GenerateMusicRequest_new (api_prompt request)
    (api_duration_seconds request) (api_genre request) (api_tempo request) =
    Return request →
  let answer := fst (endpoint_generate_music u request st) in
  ((∃ e, answer = HTTPException 500 e) ↔
   (30 < length (api_prompt request))%nat) ∧
  ((length (api_prompt request) ≤ 30)%nat →
   if _is_model_loaded st
   then ∃ response, answer = Ok response
   else ∃ e, answer = HTTPException 503 e).
Proof.
  intros Hapi answer. unfold answer.
  assert ((10 ≤ length (api_prompt request) ≤ 500)%nat ∧
          (10 ≤ api_duration_seconds request ≤ 180)%Z ∧
          opt_int_between 40 200 (api_tempo request) = true)
    as (Hp & Hd & Ht).
  { unfold GenerateMusicRequest_new in Hapi.
    apply validated_Return in Hapi as [Hapi _]. cbn in Hapi.
    unfold len_between, int_between in Hapi.
    rewrite ?andb_true_iff, ?Nat.leb_le, ?Z.leb_le in Hapi.
    destruct Hapi as ([? ?] & [? ?] & Ht & _). split_and!; try lia. done. }
  destruct (MusicGenerationRequest_new (api_prompt request)
              (api_duration_seconds request) (api_genre request)
              (api_tempo request)) as [r|e] eqn:Hcore.
  - assert (length (api_prompt request) ≤ 30)%nat as Hle.
    { unfold MusicGenerationRequest_new in Hcore.
      apply validated_Return in Hcore as [Hcore _]. cbn in Hcore.
      unfold len_between in Hcore.
      rewrite ?andb_true_iff, ?Nat.leb_le in Hcore. lia. }
    split.
    + split; [|lia]. intros [e He]. exfalso.
      destruct (_is_model_loaded st) eqn:Hl.
      * rewrite (endpoint_generate_music_ready _ _ _ _ Hcore Hl) in He.
        discriminate.
      * rewrite (endpoint_generate_music_not_ready _ _ _ _ Hcore Hl) in He.
        discriminate.
    + intros _. destruct (_is_model_loaded st) eqn:Hl.
      * rewrite (endpoint_generate_music_ready _ _ _ _ Hcore Hl). eauto.
      * rewrite (endpoint_generate_music_not_ready _ _ _ _ Hcore Hl). eauto.
  - assert (30 < length (api_prompt request))%nat as Hlt.
    { apply validated_Raise in Hcore as [Hcore _]. cbn in Hcore.
      unfold len_between, int_between in Hcore. rewrite Ht in Hcore.
      destruct (Nat.leb_spec (length (api_prompt request)) 30); [|lia].
      exfalso. revert Hcore.
      destruct (Nat.leb_spec 5 (length (api_prompt request))); [|lia].
      destruct (Z.leb_spec 5 (api_duration_seconds request)); [|lia].
      destruct (Z.leb_spec (api_duration_seconds request) 180); [|lia].
      discriminate. }
    rewrite (endpoint_generate_music_invalid _ _ _ _ Hcore). cbn [fst].
    split; [split; eauto | lia].
Qed.

Lemma schema_accepted_answers_witness :
  let answer := fst (endpoint_generate_music 7 long_prompt_request initial) in
  ((∃ e, answer = HTTPException 500 e) ↔
   (30 < length (api_prompt long_prompt_request))%nat) ∧
  ((length (api_prompt long_prompt_request) ≤ 30)%nat →
   ∃ e, answer = HTTPException 503 e).
Proof.
  apply (schema_accepted_answers 7 long_prompt_request initial). reflexivity.
Defined.

(** ** The [/status/{task_id}] handler *)

(** X5: the status handler changes nothing.  For an id that is not
    stored it answers 404 from the [InvalidTaskError]; for a stored id
    it answers with the six fields of the record as they are at that
    moment; it never answers 500. *)
Theorem endpoint_get_music_status_answers tid st :
  snd (endpoint_get_music_status tid st) = st ∧
  (_mock_tasks st !! tid = None →
   ∃ msg, fst (endpoint_get_music_status tid st) =
            HTTPException 404 (InvalidTaskError msg)) ∧
  (∀ r, snapshot tid st = Some r →
        fst (endpoint_get_music_status tid st) = Ok (status_response_of r)) ∧
  (∀ e, fst (endpoint_get_music_status tid st) ≠ HTTPException 500 e).
Proof.
  unfold endpoint_get_music_status, bind.
  destruct (_mock_tasks st !! tid) as [o|] eqn:Hk.
  - rewrite (get_generation_status_found _ _ _ Hk). cbn.
    split_and!; try done.
    intros r Hr. apply snapshot_lookup in Hr as (o' & Hk' & Hr).
    assert (o' = o) as -> by congruence.
    unfold attr. rewrite Hr. reflexivity.
  - rewrite (get_generation_status_unknown _ _ Hk). cbn.
    split_and!; try done.
    + intros _. eexists. reflexivity.
    + intros r Hr. apply snapshot_lookup in Hr as (o' & Hk' & _).
      congruence.
Qed.

Lemma endpoint_get_music_status_answers_witness :
  (∃ msg, fst (endpoint_get_music_status 7 ready) =
            HTTPException 404 (InvalidTaskError msg)) ∧
  fst (endpoint_get_music_status 7 (snd (generate_music 7 calm_piano ready))) =
    Ok (status_response_of
          (MusicGenerationResult_new 7 (prompt calm_piano) QUEUED)).
Proof.
  split.
  - apply (endpoint_get_music_status_answers 7 ready). reflexivity.
  - apply (endpoint_get_music_status_answers 7
             (snd (generate_music 7 calm_piano ready))). reflexivity.
Defined.

(** X6: a round trip through the two handlers.  Right after the
    [/generate] handler has accepted a request under the id [u], the
    status handler answers for [u] with that id, status QUEUED, the
    prompt of the request and no audio, duration or error, and changes
    nothing. *)
Theorem generate_then_status u request st :
  (∃ r, MusicGenerationRequest_new (api_prompt request)
          (api_duration_seconds request) (api_genre request)
          (api_tempo request) = Return r) →
  _is_model_loaded st = true →
  let st' := snd (endpoint_generate_music u request st) in
  endpoint_get_music_status u st' =
    (Ok {| gs_task_id := u; gs_status := QUEUED;
           gs_prompt_used := api_prompt request; gs_audio_url := None;
           gs_duration_seconds_generated := None;
           gs_error_message := None |}, st').
Proof.
  intros [r Hr] Hl st'. unfold st'.
  rewrite (endpoint_generate_music_ready _ _ _ _ Hr Hl). cbn [snd].
  rewrite (MusicGenerationRequest_new_fields _ _ _ _ _ Hr).
  rewrite (generate_music_ready _ _ _ Hl). cbn [snd prompt].
  unfold endpoint_get_music_status, bind.
  erewrite get_generation_status_found
    by (cbn [_mock_tasks]; apply lookup_insert_eq).
  unfold getattr_task_id, getattr_status, getattr, attr, ret.
  cbn [objects]. rewrite list_lookup_middle by reflexivity. reflexivity.
Qed.

Lemma generate_then_status_witness :
  let st' := snd (endpoint_generate_music 7 short_prompt_request ready) in
  endpoint_get_music_status 7 st' =
    (Ok {| gs_task_id := 7; gs_status := QUEUED;
           gs_prompt_used := py "A calm piano piece"; gs_audio_url := None;
           gs_duration_seconds_generated := None;
           gs_error_message := None |}, st').
Proof.
  apply (generate_then_status 7 short_prompt_request ready).
  - eexists. reflexivity.
  - reflexivity.
Defined.

(** ** The [/health] handler *)

(** X7: the health handler changes nothing and follows the readiness
    flag: it answers [{"status": "OK", "model_ready": true}] when the
    model is loaded and 503 with ["Model not loaded"] when it is not;
    and it answers 503 exactly when the [/generate] handler answers 503
    to a request the core's constructor accepts. *)
Theorem endpoint_health_check_answers u request st :
  (∃ r, MusicGenerationRequest_new (api_prompt request)
          (api_duration_seconds request) (api_genre request)
          (api_tempo request) = Return r) →
  snd (endpoint_health_check st) = st ∧
  fst (endpoint_health_check st) =
    (if _is_model_loaded st
     then HealthOk {| health_status := py "OK"; health_model_ready := true |}
     else HealthException 503
            {| health_status := py "Model not loaded";
               health_model_ready := false |}) ∧
  ((∃ d, fst (endpoint_health_check st) = HealthException 503 d) ↔
   (∃ e, fst (endpoint_generate_music u request st) = HTTPException 503 e)).
Proof.
  intros [r Hr]. unfold endpoint_health_check, is_model_ready.
  destruct (_is_model_loaded st) eqn:Hl; cbn.
  - split_and!; try done.
    rewrite (endpoint_generate_music_ready _ _ _ _ Hr Hl).
    split; intros [? ?]; discriminate.
  - split_and!; try done.
    rewrite (endpoint_generate_music_not_ready _ _ _ _ Hr Hl).
    split; eauto.
Qed.

Lemma endpoint_health_check_answers_witness :
  snd (endpoint_health_check initial) = initial ∧
  fst (endpoint_health_check initial) =
    HealthException 503
      {| health_status := py "Model not loaded";
         health_model_ready := false |} ∧
  ((∃ d, fst (endpoint_health_check initial) = HealthException 503 d) ↔
   (∃ e, fst (endpoint_generate_music 7 short_prompt_request initial) =
           HTTPException 503 e)).
Proof.
  apply (endpoint_health_check_answers 7 short_prompt_request initial).
  eexists. reflexivity.
Defined.

(** ** Readiness *)

Lemma step_is_model_loaded ev st :
  _is_model_loaded (snd (step ev st)) =
    match ev with
    | LoadModel => true
    | _ => _is_model_loaded st
    end.
Proof.
  destruct ev as [|u request|tid|n out].
  - reflexivity.
  - rewrite step_generate_music. destruct (_is_model_loaded st) eqn:Hl.
    + rewrite (generate_music_ready _ _ _ Hl). reflexivity.
    + rewrite (generate_music_not_ready _ _ _ Hl). exact Hl.
  - rewrite step_get_generation_status. reflexivity.
  - rewrite step_wake. apply wake_frame.
Qed.

Lemma exec_is_model_loaded tr st :
  _is_model_loaded (exec tr st) = true ↔
  _is_model_loaded st = true ∨ LoadModel ∈ tr.
Proof.
  revert st. induction tr as [|ev tr IH]; intros st; cbn [exec].
  - rewrite elem_of_nil. tauto.
  - rewrite IH, step_is_model_loaded, elem_of_cons.
    destruct ev; split; [intros [?|?]; auto | intros [?|[?|?]]; auto; discriminate
                        | intros [?|?]; auto | intros [?|[?|?]]; auto; discriminate
                        | intros [?|?]; auto | intros [?|[?|?]]; auto; discriminate
                        | intros [?|?]; auto | intros [?|[?|?]]; auto; discriminate].
Qed.

(** X8: the readiness flag is set by the end of [load_model] and by
    nothing else, and nothing clears it.  So after any run from the
    start of the process [generate_music] raises [ModelNotReadyError]
    exactly when the model has not been loaded in that run, and a
    process whose start-up has loaded the model never refuses a
    submission for that reason again. *)
Theorem generate_music_refused_until_loaded tr u request :
  ((∃ msg, fst (generate_music u request (exec tr initial)) =
             Raise (ModelNotReadyError msg)) ↔
   LoadModel ∉ tr) ∧
  (∀ e, fst (generate_music u request (exec (LoadModel :: tr) initial)) ≠
          Raise e).
Proof.
  split.
  - pose proof (exec_is_model_loaded tr initial) as H. cbn [initial
      _is_model_loaded] in H.
    destruct (_is_model_loaded (exec tr initial)) eqn:Hl.
    + rewrite (generate_music_ready _ _ _ Hl). cbn [fst]. split.
      * intros [? ?]. discriminate.
      * intros Hn. exfalso. destruct H as [[?|?] _]; [done|discriminate|done].
    + rewrite (generate_music_not_ready _ _ _ Hl). cbn [fst]. split.
      * intros _ Hin. destruct H as [_ H]. discriminate H. auto.
      * intros _. eexists. reflexivity.
  - intros e.
    assert (_is_model_loaded (exec (LoadModel :: tr) initial) = true) as Hl.
    { apply exec_is_model_loaded. right. apply list_elem_of_here. }
    rewrite (generate_music_ready _ _ _ Hl). discriminate.
Qed.

(** ** The singleton *)




(** ** What the background tasks find *)

Lemma created_stored_step ev st :
  created_stored st → created_stored (snd (step ev st)).
Proof.
  intros HC. destruct ev as [|u request|tid|n out].
  - exact HC.
  - rewrite step_generate_music. destruct (_is_model_loaded st) eqn:Hl.
    2: { rewrite (generate_music_not_ready _ _ _ Hl). exact HC. }
    rewrite (generate_music_ready _ _ _ Hl). intros n tid request'. cbn.
    intros Hn. destruct (decide (u = tid)) as [->|Hne].
    { rewrite lookup_insert_eq. eauto. }
    rewrite lookup_insert_ne by done.
    apply lookup_app_Some in Hn as [Hn|[_ Hn]].
    + eapply HC, Hn.
    + apply list_lookup_singleton_Some in Hn as [_ [= -> _]]. done.
  - rewrite step_get_generation_status. exact HC.
  - rewrite step_wake. intros m tid request Hm.
    destruct (wake_frame n out st) as (_ & -> & _).
    destruct (decide (m = n)) as [->|Hne].
    + destruct (wake_loop_tasks n out n st) as (_ & _ & _ & Hno).
      destruct (Hno _ _ Hm).
    + destruct (wake_loop_tasks n out m st) as (_ & Hsame & _).
      rewrite (Hsame Hne) in Hm. eapply HC, Hm.
Qed.

Lemma created_stored_exec tr st :
  created_stored st → created_stored (exec tr st).
Proof.
  revert st. induction tr as [|ev tr IH]; intros st HC; cbn; [done|].
  apply IH, created_stored_step, HC.
Qed.

(** X10: the early return of [_simulate_generation] ("should not happen
    if called internally") is never taken.  After any run from the start
    of the process, a background task that has not started yet finds its
    id in the dictionary, stored with a record that carries that id. *)
Theorem simulate_generation_finds_task tr n tid request :
  loop_tasks (exec tr initial) !! n = Some (Created tid request) →
  ∃ task r,
    mock_tasks_get tid (exec tr initial) =
      (Return (Some task), exec tr initial) ∧
    objects (exec tr initial) !! task = Some r ∧ task_id r = tid.
Proof.
  intros Hn.
  assert (created_stored initial) as H0.
  { intros m ? ? Hm. cbn in Hm. rewrite lookup_nil in Hm. discriminate. }
  destruct (created_stored_exec tr initial H0 _ _ _ Hn) as [task Hk].
  destruct (keyed_exec tr initial keyed_initial tid task Hk)
    as (r & Hr & Hid & _).
  exists task, r. unfold mock_tasks_get. rewrite Hk. done.
Qed.

Lemma simulate_generation_finds_task_witness :
  ∃ task r,
    mock_tasks_get 7 (exec [LoadModel; GenerateMusic 7 calm_piano] initial) =
      (Return (Some task),
       exec [LoadModel; GenerateMusic 7 calm_piano] initial) ∧
    objects (exec [LoadModel; GenerateMusic 7 calm_piano] initial) !! task =
      Some r ∧ task_id r = 7.
Proof.
  apply (simulate_generation_finds_task
           [LoadModel; GenerateMusic 7 calm_piano] 0%nat 7 calm_piano).
  reflexivity.
Defined.

(** ** What never changes *)

Lemma step_object ev st o r :
  objects st !! o = Some r →
  ∃ r', objects (snd (step ev st)) !! o = Some r' ∧
        task_id r' = task_id r ∧ prompt_used r' = prompt_used r.
Proof.
  intros Hr. destruct ev as [|u request|tid|n out].
  - exists r. done.
  - exists r. split; [|done]. rewrite step_generate_music.
    destruct (_is_model_loaded st) eqn:Hl.
    + rewrite (generate_music_ready _ _ _ Hl). cbn.
      rewrite lookup_app_l; [done|]. eapply lookup_lt_Some, Hr.
    + rewrite (generate_music_not_ready _ _ _ Hl). exact Hr.
  - exists r. rewrite step_get_generation_status. done.
  - rewrite step_wake.
    destruct (wake_frame n out st) as (_ & _ & _ & o' & f & -> & Hf).
    destruct (decide (o' = o)) as [->|Hne].
    + exists (f r). rewrite list_lookup_alter_eq, Hr. split; [done|].
      destruct (Hf r) as (? & ? & _). done.
    + exists r. rewrite list_lookup_alter_ne by done. done.
Qed.

Lemma step_mock_tasks_stable ev st k o :
  admissible ev st = true →
  _mock_tasks st !! k = Some o → _mock_tasks (snd (step ev st)) !! k = Some o.
Proof.
  intros Hf Hk. destruct ev as [|u request|tid|n out].
  - exact Hk.
  - rewrite step_generate_music.
    destruct (admissible_generate_music _ _ _ Hf) as [_ [Hl|Hu]].
    + rewrite (generate_music_not_ready _ _ _ Hl). exact Hk.
    + destruct (_is_model_loaded st) eqn:Hl.
      * rewrite (generate_music_ready _ _ _ Hl). cbn.
        rewrite lookup_insert_ne; [done|]. congruence.
      * rewrite (generate_music_not_ready _ _ _ Hl). exact Hk.
  - rewrite step_get_generation_status. exact Hk.
  - rewrite step_wake.
    destruct (wake_frame n out st) as (_ & -> & _). exact Hk.
Qed.

Lemma exec_record_kept tr st tid r :
  admissible_run tr st = true →
  snapshot tid st = Some r →
  ∃ r', snapshot tid (exec tr st) = Some r' ∧
        task_id r' = task_id r ∧ prompt_used r' = prompt_used r.
Proof.
  revert st r. induction tr as [|ev tr IH]; intros st r Hf Hs.
  - exists r. done.
  - cbn in Hf. apply andb_true_iff in Hf as [Hf1 Hf2]. cbn [exec].
    apply snapshot_lookup in Hs as (o & Hk & Hr).
    destruct (step_object ev st o r Hr) as (r1 & Hr1 & Hid & Hp).
    pose proof (step_mock_tasks_stable _ _ _ _ Hf1 Hk) as Hk1.
    destruct (IH (snd (step ev st)) r1 Hf2) as (r' & Hs' & Hid' & Hp').
    { apply snapshot_lookup. eauto. }
    exists r'. split; [exact Hs'|]. split; congruence.
Qed.

(** X11: identity and prompt are for good.  Along any admissible run, a
    record that a status read finds under an id is found under that id
    ever after, with the same [task_id] and the same [prompt_used]: no
    step of the system assigns to either field or removes a record. *)
Theorem record_identity_kept tr1 tr2 tid r :
  admissible_run (tr1 ++ tr2) initial = true →
  snapshot tid (exec tr1 initial) = Some r →
  ∃ r', snapshot tid (exec (tr1 ++ tr2) initial) = Some r' ∧
        task_id r' = task_id r ∧ prompt_used r' = prompt_used r.
Proof.
  intros Hf Hs. apply admissible_run_app in Hf as [_ Hf2].
  rewrite exec_app. apply exec_record_kept; done.
Qed.

Lemma record_identity_kept_witness :
  ∃ r', snapshot 7 (exec ([LoadModel; GenerateMusic 7 calm_piano] ++
                          [Wake 0%nat quiet; GenerateMusic 9 please_fail;
                           Wake 0%nat quiet])
                      initial) = Some r' ∧
        task_id r' = 7 ∧ prompt_used r' = prompt calm_piano.
Proof.
  apply (record_identity_kept [LoadModel; GenerateMusic 7 calm_piano]
           [Wake 0%nat quiet; GenerateMusic 9 please_fail; Wake 0%nat quiet]
           7
           (MusicGenerationResult_new 7 (prompt calm_piano) QUEUED));
    reflexivity.
Defined.

(** ** One of each per accepted submission *)

Lemma step_counts ev st :
  admissible ev st = true →
  let k := length (accepted [ev] st) in
  length (objects (snd (step ev st))) = (length (objects st) + k)%nat ∧
  length (loop_tasks (snd (step ev st))) = (length (loop_tasks st) + k)%nat ∧
  size (_mock_tasks (snd (step ev st))) = (size (_mock_tasks st) + k)%nat.
Proof.
  intros Hf. rewrite accepted_cons. destruct ev as [|u request|tid|n out].
  - cbn. lia.
  - rewrite step_generate_music.
    destruct (admissible_generate_music _ _ _ Hf) as [_ Hfree].
    destruct (_is_model_loaded st) eqn:Hl.
    + destruct Hfree as [?|Hu]; [congruence|].
      rewrite (generate_music_ready _ _ _ Hl). cbn.
      rewrite !length_app, map_size_insert_None by done. cbn. lia.
    + rewrite (generate_music_not_ready _ _ _ Hl). cbn. lia.
  - rewrite step_get_generation_status. cbn. lia.
  - rewrite step_wake. cbn [accepted length].
    destruct (wake_frame n out st) as (_ & -> & -> & _).
    destruct (wake_loop_tasks n out n st) as (-> & _). lia.
Qed.

Lemma exec_counts tr st :
  admissible_run tr st = true →
  length (objects (exec tr st)) =
    (length (objects st) + length (accepted tr st))%nat ∧
  length (loop_tasks (exec tr st)) =
    (length (loop_tasks st) + length (accepted tr st))%nat ∧
  size (_mock_tasks (exec tr st)) =
    (size (_mock_tasks st) + length (accepted tr st))%nat.
Proof.
  revert st. induction tr as [|ev tr IH]; intros st Hf.
  - cbn. lia.
  - cbn in Hf. apply andb_true_iff in Hf as [Hf1 Hf2].
    destruct (IH _ Hf2) as (H1 & H2 & H3).
    destruct (step_counts ev st Hf1) as (K1 & K2 & K3).
    cbn [exec]. rewrite H1, H2, H3, K1, K2, K3.
    assert (length (accepted (ev :: tr) st) =
            (length (accepted [ev] st) +
             length (accepted tr (snd (step ev st))))%nat) as ->.
    { rewrite !accepted_cons.
      destruct ev; try reflexivity.
      destruct (_is_model_loaded st); reflexivity. }
    lia.
Qed.

(** X12: one of each per accepted submission.  After any admissible
    run from the start of the process there are exactly as many result
    objects, as many background tasks and as many ids in the dictionary
    as there were calls of [generate_music] that returned: status reads,
    refused submissions and turns of the loop create and remove
    nothing. *)
Theorem one_record_per_submission tr :
  admissible_run tr initial = true →
  length (objects (exec tr initial)) = length (accepted tr initial) ∧
  length (loop_tasks (exec tr initial)) = length (accepted tr initial) ∧
  size (_mock_tasks (exec tr initial)) = length (accepted tr initial).
Proof.
  intros Hf. destruct (exec_counts tr initial Hf) as (H1 & H2 & H3).
  cbn [initial objects loop_tasks _mock_tasks] in *.
  rewrite map_size_empty in H3. cbn in H1, H2. done.
Qed.

Lemma one_record_per_submission_witness :
  length (objects (exec hundred_submissions initial)) =
    length (accepted hundred_submissions initial) ∧
  length (loop_tasks (exec hundred_submissions initial)) =
    length (accepted hundred_submissions initial) ∧
  size (_mock_tasks (exec hundred_submissions initial)) =
    length (accepted hundred_submissions initial).
Proof.
  apply (one_record_per_submission hundred_submissions).
  vm_compute. reflexivity.
Defined.


(** ** Running every task to its end *)









(** ** The failure trigger *)

Lemma startswith_spec p s :
  startswith p s = true ↔ ∃ post, s = p ++ post.
Proof.
  revert s. induction p as [|a p IH]; intros s.
  - cbn. split; eauto.
  - destruct s as [|b s]; cbn.
    + split; [discriminate | intros [? ?]; discriminate].
    + rewrite andb_true_iff, N.eqb_eq, IH. split.
      * intros [-> [post ->]]. eauto.
      * intros [post [= -> ->]]. eauto.
Qed.

Lemma py_in_spec needle hay :
  py_in needle hay = true ↔ ∃ pre post, hay = pre ++ needle ++ post.
Proof.
  induction hay as [|a hay IH].
  - cbn. rewrite orb_false_r, startswith_spec. split.
    + intros [post H]. exists [], post. exact H.
    + intros (pre & post & H). symmetry in H.
      apply app_eq_nil in H as [-> H]. eauto.
  - cbn [py_in]. rewrite orb_true_iff, startswith_spec, IH. split.
    + intros [[post H]|(pre & post & H)].
      * exists [], post. exact H.
      * exists (a :: pre), post. rewrite H. reflexivity.
    + intros (pre & post & H). destruct pre as [|b pre].
      * left. eauto.
      * right. injection H as _ H. eauto.
Qed.

Lemma lower_app s1 s2 : lower (s1 ++ s2) = lower s1 ++ lower s2.
Proof. unfold lower. apply flat_map_app. Qed.

(** X14: the simulated failure is set off by the word, wherever it is
    and in whatever case.  Lines 97 to 103 of the [try] block raise
    exactly when the lowered prompt has ["fail"] as a run of four
    consecutive characters, and they then raise the [ValueError] before
    touching the record; in particular a prompt that holds, anywhere,
    four characters that lower to ["fail"] sets it off. *)
Theorem simulated_failure_trigger task tid request st :
  ((∃ e, fst (_simulate_success_or_failure task tid request st) = Raise e) ↔
   ∃ pre post, lower (prompt request) = pre ++ py "fail" ++ post) ∧
  (∀ e, fst (_simulate_success_or_failure task tid request st) = Raise e →
     e = ValueError (py "Simulated failure due to keyword 'fail'.") ∧
     snd (_simulate_success_or_failure task tid request st) = st) ∧
  (∀ pre w post,
     prompt request = pre ++ w ++ post → lower w = py "fail" →
     ∃ e, fst (_simulate_success_or_failure task tid request st) = Raise e).
Proof.
  assert ((∃ e, fst (_simulate_success_or_failure task tid request st) = Raise e) ↔
          ∃ pre post, lower (prompt request) = pre ++ py "fail" ++ post)
    as Hiff.
  { rewrite <- py_in_spec. unfold _simulate_success_or_failure.
    destruct (py_in (py "fail") (lower (prompt request))).
    - split; [done|]. intros _. eexists. reflexivity.
    - split; [intros [? ?]; discriminate | discriminate]. }
  split_and!.
  - exact Hiff.
  - unfold _simulate_success_or_failure.
    destruct (py_in (py "fail") (lower (prompt request))).
    + intros e [= <-]. done.
    + discriminate.
  - intros pre w post Hp Hw. apply Hiff.
    exists (lower pre), (lower post). rewrite Hp, !lower_app, Hw.
    reflexivity.
Qed.

Lemma simulated_failure_trigger_witness :
  ∃ e, fst (_simulate_success_or_failure 0%nat 7
              (sample_request "No FAILure here" 10) ready) = Raise e.
Proof.
  apply (simulated_failure_trigger 0%nat 7
           (sample_request "No FAILure here" 10) ready)
    with (pre := py "No ") (w := py "FAIL") (post := py "ure here");
    reflexivity.
Defined.

(** ** Locators *)

Lemma tracks_audio_url n tid request c r url :
  tracks n tid request c r → audio_url r = Some url → url = audio_url_of tid.
Proof.
  destruct 1 as [| | | |e Hf]; cbn; try discriminate.
  - unfold outcome, finish_update. destruct (fail_trigger request); cbn.
    + discriminate.
    + congruence.
  - unfold spoiled, except_update, outcome, finish_update. rewrite Hf. cbn.
    congruence.
Qed.

Lemma uuid_str_length u : length (uuid_str u) = 36%nat.
Proof.
  unfold uuid_str. cbn zeta.
  rewrite !length_app, !length_take, !length_drop, !hex_length.
  reflexivity.
Qed.

(** X15: a locator names one task.  [str] of an id has 36 characters;
    along any admissible run the [audio_url] of a record read under an
    id is the static prefix, [str] of that id and [".mp3"]; and two ids
    (128-bit numbers, as UUIDs are) whose records carry the same
    [audio_url] are the same id. *)
Theorem audio_url_names_task tr tid1 tid2 r1 r2 url :
  admissible_run tr initial = true →
  tid1 < 2 ^ 128 → tid2 < 2 ^ 128 →
  snapshot tid1 (exec tr initial) = Some r1 →
  snapshot tid2 (exec tr initial) = Some r2 →
  audio_url r1 = Some url → audio_url r2 = Some url →
  length (uuid_str tid1) = 36%nat ∧
  url = py "http://localhost:8000/static/audio/" ++ uuid_str tid1 ++
        py ".mp3" ∧
  tid1 = tid2.
Proof.
  intros Hf H1 H2 Hs1 Hs2 Ha1 Ha2.
  pose proof (Inv_exec _ _ Inv_initial Hf) as HI.
  assert (∀ tid r, snapshot tid (exec tr initial) = Some r →
                   audio_url r = Some url → url = audio_url_of tid) as Hurl.
  { intros tid r Hs Ha. apply snapshot_lookup in Hs as (o & Hk & Hr).
    destruct (inv_runs _ HI o)
      as (tid' & request & c & r0 & _ & Hr0 & _ & _ & Ht).
    { eapply lookup_lt_Some, Hr. }
    assert (r0 = r) as -> by congruence.
    pose proof (inv_keys _ HI _ _ Hk) as Hid. unfold attr in Hid.
    rewrite Hr in Hid. cbn in Hid.
    rewrite (tracks_task_id _ _ _ _ _ Ht) in Hid. injection Hid as ->.
    eapply tracks_audio_url; eauto. }
  pose proof (Hurl _ _ Hs1 Ha1) as E1. pose proof (Hurl _ _ Hs2 Ha2) as E2.
  split_and!.
  - apply uuid_str_length.
  - exact E1.
  - apply audio_url_of_inj; congruence.
Qed.

Lemma audio_url_names_task_witness :
  length (uuid_str 7) = 36%nat ∧
  py "http://localhost:8000/static/audio/00000000-0000-0000-0000-000000000007.mp3" =
    py "http://localhost:8000/static/audio/" ++ uuid_str 7 ++ py ".mp3" ∧
  7 = 7.
Proof.
  apply (audio_url_names_task
           [LoadModel; GenerateMusic 7 calm_piano;
            Wake 0%nat quiet; Wake 0%nat quiet] 7 7
           (outcome 7 calm_piano) (outcome 7 calm_piano)
           (py "http://localhost:8000/static/audio/00000000-0000-0000-0000-000000000007.mp3"));
    reflexivity.
Defined.

(** ** The first turn of a task *)

(** X16: along any admissible run, the first turn of a background task
    only marks its record.  The record read under the task's id is then
    PROCESSING with the prompt of the submission and no audio, duration
    or error, and the dictionary and the records of all other ids are as
    before.  The delay of the sleep can be computed for every request
    the constructor accepts, so if the line of that turn can be printed
    the turn ends with the coroutine suspended in its sleep; if it
    cannot, the exception leaves the coroutine, which is over. *)
Theorem first_turn_marks_processing tr n out tid request :
  admissible_run tr initial = true →
  loop_tasks (exec tr initial) !! n = Some (Created tid request) →
  let st := exec tr initial in
  let st' := snd (wake n out st) in
  int_truediv (duration_seconds request) 5 = Return tt ∧
  snapshot tid st' =
    Some (MusicGenerationResult_new tid (prompt request) PROCESSING) ∧
  _mock_tasks st' = _mock_tasks st ∧
  (∀ tid', tid' ≠ tid → snapshot tid' st' = snapshot tid' st) ∧
  match out (processing_line tid request) with
  | None =>
      fst (wake n out st) = Return tt ∧
      loop_tasks st' !! n = Some (Sleeping n tid request)
  | Some e =>
      fst (wake n out st) = Raise e ∧ loop_tasks st' !! n = Some Finished
  end.
Proof.
  intros Hf Hc st st'.
  pose proof (Inv_exec _ _ Inv_initial Hf) as HI. fold st in HI, Hc.
  assert (n < length (objects st))%nat as Hlt.
  { rewrite <- (inv_len _ HI). eapply lookup_lt_Some, Hc. }
  destruct (inv_runs _ HI n Hlt)
    as (tid0 & request0 & c & r & Hc0 & Hr & Hk & Hv & Ht).
  rewrite Hc in Hc0. injection Hc0 as <-.
  inversion Ht. subst tid0 request0 r.
  pose proof (valid_request_delay _ Hv) as Hd.
  assert (∃ res c',
            wake n out st =
              (res, moved n c'
                      (MusicGenerationResult_new tid (prompt request)
                         PROCESSING) st) ∧
            match out (processing_line tid request) with
            | None => res = Return tt ∧ c' = Sleeping n tid request
            | Some e => res = Raise e ∧ c' = Finished
            end) as (res & c' & Hw & Hres).
  { destruct (out (processing_line tid request)) as [e|] eqn:Hout.
    - eexists _, _. rewrite (wake_created_silenced _ _ _ _ _ _ _ Hc Hk Hout).
      rewrite (alter_lookup _ _ _ _ Hr). done.
    - eexists _, _. rewrite (wake_created _ _ _ _ _ _ Hc Hk Hout Hd).
      rewrite (alter_lookup _ _ _ _ Hr). done. }
  unfold st'. rewrite Hw. cbn [fst snd]. split; [exact Hd|]. split_and!.
  - apply snapshot_lookup. exists n. cbn. split; [done|].
    apply list_lookup_insert_eq, Hlt.
  - reflexivity.
  - intros tid' Hne. apply snapshot_ext; [done|].
    cbn. intros o Hko. apply list_lookup_insert_ne. intros ->.
    pose proof (inv_keys _ HI _ _ Hko) as H1.
    pose proof (inv_keys _ HI _ _ Hk) as H2. congruence.
  - assert (loop_tasks (moved n c'
              (MusicGenerationResult_new tid (prompt request) PROCESSING) st)
              !! n = Some c') as Hn.
    { cbn. apply list_lookup_insert_eq. eapply lookup_lt_Some, Hc. }
    rewrite Hn.
    destruct (out (processing_line tid request));
      destruct Hres as [-> ->]; done.
Qed.

Lemma first_turn_marks_processing_witness :
  let st := exec [LoadModel; GenerateMusic 7 calm_piano;
                  GenerateMusic 9 please_fail] initial in
  let st' := snd (wake 1 ascii_stdout st) in
  int_truediv (duration_seconds please_fail) 5 = Return tt ∧
  snapshot 9 st' =
    Some (MusicGenerationResult_new 9 (prompt please_fail) PROCESSING) ∧
  _mock_tasks st' = _mock_tasks st ∧
  (∀ tid', tid' ≠ 9 → snapshot tid' st' = snapshot tid' st) ∧
  fst (wake 1 ascii_stdout st) = Return tt ∧
  loop_tasks st' !! 1%nat = Some (Sleeping 1 9 please_fail).
Proof.
  apply (first_turn_marks_processing
           [LoadModel; GenerateMusic 7 calm_piano; GenerateMusic 9 please_fail]
           1%nat ascii_stdout 9 please_fail); reflexivity.
Defined.

(** ** Instances of the properties that hold while lines can be printed *)



Lemma try_errors_recorded_witness :
  let st := exec [LoadModel; GenerateMusic 7 calm_piano;
                  Wake 0%nat quiet] initial in
  let st' := snd (wake 0 closed_stdout st) in
  loop_tasks st' !! 0%nat = Some Finished ∧
  (∃ r, snapshot 7 st' = Some r ∧ status r = FAILED ∧
        error_message r =
          Some (py "Generation failed: " ++
                py "I/O operation on closed file.")) ∧
  _is_model_loaded st' = _is_model_loaded st ∧
  _mock_tasks st' = _mock_tasks st ∧
  (∀ tid', tid' ≠ 7 → snapshot tid' st' = snapshot tid' st) ∧
  (∀ m, m ≠ 0%nat → loop_tasks st' !! m = loop_tasks st !! m) ∧
  (∀ u request' e', fst (generate_music u request' st') = Raise e' →
     is_ModelNotReadyError e' = true ∧ _is_model_loaded st' = false) ∧
  (∀ tid' e', fst (get_generation_status tid' st') = Raise e' →
     is_InvalidTaskError e' = true ∧ _mock_tasks st' !! tid' = None).
Proof.
  apply (try_errors_recorded
           [LoadModel; GenerateMusic 7 calm_piano; Wake 0%nat quiet]
           0%nat closed_stdout 0%nat 7 calm_piano
           (ValueError (py "I/O operation on closed file.")));
    reflexivity.
Defined.
